(** * Tiggit self-update pipeline: a shallow embedding of
      [src/misc/self_update.hpp] and the properties of its specification.

    The development follows the source file top-down:

    - paths and the file-system operations of [boost::filesystem] that the
      updater calls ([exists], [remove], [remove_all], [copy_file],
      [is_regular_file], [directory_iterator]);
    - the [Updater] object (fields [version], [offline], [gett]) together
      with the file system and the sequence of observable actions, as one
      state record threaded through a state/exception monad;
    - [UpdateLog::log], [UpdateLog::copyLog], [Updater::checkVersion],
      [Updater::doUpdate] and [Updater::doAutoUpdate].

    Background jobs ([DownloadJob], [ZipJob]), the progress dialog and
    [wxExecute] belong to the environment: their answers are supplied by
    scripts, one observation per poll-loop iteration.

    Left out, since nothing the updater does depends on them: the pauses
    ([yield], [wxMilliSleep], [wxSleep]), the time stamp in front of each
    log line, and [assert(!offline)], which the test before it makes true.

    Two smaller parts follow the updater: the configuration file of
    [src/config.hpp] (module [Cfg]) and the ratings of
    [src/tiglib/repo.cpp] (module [Repo]).  The JSON layer that the first
    calls is not among the sources: what it answers is supplied from
    outside, as for the jobs.  Nor is the key/value store that the second
    calls: it is taken to be a finite map. *)

From Stdlib Require Import ZArith Ascii String List.
From stdpp Require Import base decidable option list strings gmap fin_maps.

Local Open Scope string_scope.
Local Open Scope Z_scope.

(** ** Paths ([boost::filesystem::path]) *)

(** A path is the list of its elements, root first.  [p / s] appends one
    element, [parent_path] drops the last one, [leaf] is the last one (the
    empty string for the empty path) and [string()] joins with a slash. *)
Abbreviation path := (list string).

Definition parent_path (p : path) : path := removelast p.

Definition leaf (p : path) : string := List.last p "".

Definition path_cat (p : path) (s : string) : path := (p ++ [s])%list.

Infix "//" := path_cat (at level 40, left associativity).

Definition path_string (p : path) : string := String.concat "/" p.

(** [q] is an entry of directory [d]. *)
Definition is_entry_of (d q : path) : Prop := q = d // leaf q.

Global Instance is_entry_of_dec d q : Decision (is_entry_of d q).
Proof. unfold is_entry_of. apply _. Defined.

(** ** The file system *)

(** A finite map from paths to files and directories.  The map is flat: an
    entry does not need its parent directory to be present, and the calls
    below fail only for the reasons written at each of them. *)
Inductive node :=
| File (content : string)
| Dir.

Global Instance node_eq_dec : EqDecision node.
Proof. solve_decision. Defined.

Abbreviation filesystem := (gmap path node).

Definition fs_exists (fs : filesystem) (p : path) : bool :=
  match fs !! p with Some _ => true | None => false end.

Definition is_regular_file (fs : filesystem) (p : path) : bool :=
  match fs !! p with Some (File _) => true | _ => false end.

(** Paths strictly below [p]. *)
Definition below (p q : path) : Prop := p `prefix_of` q ∧ q ≠ p.

Global Instance below_dec p q : Decision (below p q).
Proof. unfold below. apply _. Defined.

Definition has_entries (fs : filesystem) (p : path) : bool :=
  bool_decide (filter (λ kv : path * node, below p kv.1) fs ≠ ∅).

(** [directory_iterator(d)]: the entries of [d], in the order in which the
    map enumerates them. *)
Definition dir_entries (fs : filesystem) (d : path) : list path :=
  filter (is_entry_of d) (map_to_list fs).*1.

(** [remove_all(p)]: [p] and everything below it. *)
Definition fs_remove_all (fs : filesystem) (p : path) : filesystem :=
  filter (λ kv : path * node, ¬ p `prefix_of` kv.1) fs.

(** [remove(p)]: deletes a file or an empty directory; [None] stands for
    the [filesystem_error] raised on a directory that still has entries. *)
Definition fs_remove (fs : filesystem) (p : path) : option filesystem :=
  match fs !! p with
  | Some Dir => if has_entries fs p then None else Some (delete p fs)
  | _ => Some (delete p fs)
  end.

(** [copy_file(from, to)] with the default [fail_if_exists] option: [None]
    stands for the [filesystem_error] raised when [from] is not a regular
    file or [to] already exists. *)
Definition fs_copy_file (fs : filesystem) (from to : path) : option filesystem :=
  match fs !! from with
  | Some (File c) => if fs_exists fs to then None else Some (<[to := File c]> fs)
  | _ => None
  end.

(** [ifstream inf(p); if(inf) inf >> s;]: the first whitespace-delimited
    token of the file, when the file opens and holds one. *)
Definition is_space (a : ascii) : bool :=
  let n := nat_of_ascii a in
  (Nat.eqb n 32 || (Nat.leb 9 n && Nat.leb n 13))%bool.

Fixpoint skip_ws (s : string) : string :=
  match s with
  | String a s' => if is_space a then skip_ws s' else s
  | EmptyString => EmptyString
  end.

Fixpoint take_token (s : string) : string :=
  match s with
  | String a s' => if is_space a then EmptyString else String a (take_token s')
  | EmptyString => EmptyString
  end.

Definition first_token (s : string) : option string :=
  match take_token (skip_ws s) with
  | EmptyString => None
  | t => Some t
  end.

Definition read_token (fs : filesystem) (p : path) : option string :=
  match fs !! p with
  | Some (File c) => first_token c
  | _ => None
  end.

(** ** Jobs, manifests and the environment *)

(** Modelled from the spec: the job classes behind [DownloadJob] and
    [ZipJob] are not among the sources.  The spec's TransferState carries
    [finished], [succeeded] and [canceled]; a job is therefore either still
    running, or finished in exactly one of three ways.  [isFinished],
    [isSuccess] and [isNonSuccess] are the three queries the updater makes. *)
Inductive JobStatus := Busy | Done | Error | Aborted.

Definition isFinished (s : JobStatus) : bool :=
  match s with Busy => false | _ => true end.

Definition isSuccess (s : JobStatus) : bool :=
  match s with Done => true | _ => false end.

Definition isNonSuccess (s : JobStatus) : bool :=
  match s with Error | Aborted => true | _ => false end.

(** What one iteration of a poll loop observes: the job's byte counters,
    the answer of the progress dialog ([false] when the user pressed
    Cancel) and the status the job shows when the iteration asks for it
    ([isFinished], and [isSuccess] or [isNonSuccess] once the loop is left). *)
Record Tick := {
  tk_total : Z;
  tk_current : Z;
  tk_ui : bool;
  tk_status : JobStatus
}.

(** [DataList::TigInfo], restricted to the two fields the updater reads. *)
Record TigInfo := { ti_version : string; ti_url : string }.

(** [TigListReader::decodeTigFile(file, ti)]: fills [ti] and returns true,
    returns false, or throws. *)
Inductive Decoded := DecOk (ti : TigInfo) | DecFail | DecThrow.

(** A manifest fetch: the observations of its poll loop (the loop is still
    polling when they run out) and what decoding the fetched file gives. *)
Record FetchScript := {
  fj_ticks : list Tick;
  fj_decode : Decoded
}.

(** An archive download followed by its unpacking: the observations of the
    two poll loops and the entries the unpacker leaves under its
    destination, relative to it. *)
Record UpdateScript := {
  us_ticks : list Tick;
  us_zip_polls : list JobStatus;
  us_entries : list (path * node)
}.

(** Everything outside the updater.  [tmp_get] and [getPath] stand for
    [FileGetter], which is not among the sources: they give the file a name
    resolves to once [setBase] has fixed the base directory. *)
Record Env := {
  wxGetOsVersion : Z;
  tmp_get : path → string → path;
  getPath : path → string → path;
  app_check : FetchScript;
  app_update : UpdateScript;
  dll_check : FetchScript;
  dll_update : UpdateScript;
  wxExecute : path → Z
}.

(** [wxOS_WINDOWS] of wxWidgets: the four Windows families, bits 2 to 5. *)
Definition wxOS_WINDOWS : Z := 60.

(** ** Observable actions *)

Inductive Event :=
| EvLog (msg : string)
| EvMsg (msg : string)
| EvUpdate (prog : Z)
| EvPulse
| EvFetch (url : string) (file : path)
| EvAbort
| EvUnzip (zip dest : path)
| EvRemove (p : path)
| EvRemoveAll (p : path)
| EvCopy (from to : path)
| EvExec (cmd : path).

Global Instance Event_eq_dec : EqDecision Event.
Proof. solve_decision. Defined.

(** ** State *)

(** The [Updater] fields, the file system and the actions so far (oldest
    first).  The update log is kept as [EvLog] actions rather than as a file
    of [fs]; the temporary files of the two downloads are likewise kept out
    of [fs], the fetch being recorded as [EvFetch]. *)
Record World := {
  fs : filesystem;
  version : string;
  offline : bool;
  gett_base : path;
  trace : list Event
}.

(** The [Updater] constructor: [version("unknown"), offline(false)]. *)
Definition new_updater (files : filesystem) : World :=
  {| fs := files; version := "unknown"; offline := false;
     gett_base := []; trace := [] |}.

Definition with_fs (f : filesystem) (w : World) : World :=
  {| fs := f; version := version w; offline := offline w;
     gett_base := gett_base w; trace := trace w |}.

Definition with_version (v : string) (w : World) : World :=
  {| fs := fs w; version := v; offline := offline w;
     gett_base := gett_base w; trace := trace w |}.

Definition with_offline (b : bool) (w : World) : World :=
  {| fs := fs w; version := version w; offline := b;
     gett_base := gett_base w; trace := trace w |}.

Definition with_base (p : path) (w : World) : World :=
  {| fs := fs w; version := version w; offline := offline w;
     gett_base := p; trace := trace w |}.

Definition record (e : Event) (w : World) : World :=
  {| fs := fs w; version := version w; offline := offline w;
     gett_base := gett_base w; trace := (trace w ++ [e])%list |}.

(** ** The monad: state, C++ exceptions, and loops that never leave *)

Inductive outcome (A : Type) :=
| Ret (a : A) (w : World)
| Throw (w : World)
| Hang (w : World).

Arguments Ret {A} a w.
Arguments Throw {A} w.
Arguments Hang {A} w.

Definition M (A : Type) : Type := World → outcome A.

Global Instance M_ret : MRet M := λ A a w, Ret a w.

Global Instance M_bind : MBind M := λ A B f m w,
  match m w with
  | Ret a w' => f a w'
  | Throw w' => Throw w'
  | Hang w' => Hang w'
  end.

Definition hang {A} : M A := λ w, Hang w.
Definition emit (e : Event) : M unit := λ w, Ret tt (record e w).
Definition gets {A} (f : World → A) : M A := λ w, Ret (f w) w.
Definition modify (f : World → World) : M unit := λ w, Ret tt (f w).

(** *** File-system calls *)

Definition exists_ (p : path) : M bool := gets (λ w, fs_exists (fs w) p).

Definition remove (p : path) : M unit := λ w,
  match fs_remove (fs w) p with
  | Some f => Ret tt (record (EvRemove p) (with_fs f w))
  | None => Throw w
  end.

Definition remove_all (p : path) : M unit := λ w,
  Ret tt (record (EvRemoveAll p) (with_fs (fs_remove_all (fs w) p) w)).

Definition copy_file (from to : path) : M unit := λ w,
  match fs_copy_file (fs w) from to with
  | Some f => Ret tt (record (EvCopy from to) (with_fs f w))
  | None => Throw w
  end.

(** *** UpdateLog *)

(** [log(msg)] appends a line to [update_log.txt]; the line is kept as an
    action. *)
Definition log (msg : string) : M unit := emit (EvLog msg).

Definition copyLog (from to : path) : M unit :=
  log ("Copy: " +:+ path_string from +:+ " => " +:+ path_string to) ;;
  b ← exists_ to;
  (if b : bool then remove to else mret tt) ;;
  copy_file from to.

(** *** ProgressHolder *)

Definition setMsg (msg : string) : M unit := emit (EvMsg msg).
Definition update (prog : Z) (answer : bool) : M bool := emit (EvUpdate prog) ;; mret answer.
Definition pulse (answer : bool) : M bool := emit EvPulse ;; mret answer.

(** *** Jobs *)

(** [DownloadJob getter(url, file); getter.run();] and [getter.abort()]. *)
Definition run_download (url : string) (file : path) : M unit := emit (EvFetch url file).
Definition abort : M unit := emit EvAbort.

(** [ZipJob install(zip, dest); install.run();]: the entries of the script
    appear under [dest]. *)
Definition unpack_into (dest : path) (entries : list (path * node)) (f : filesystem) : filesystem :=
  foldr (λ e acc, <[(dest ++ e.1)%list := e.2]> acc) f entries.

Definition run_unzip (zip dest : path) (entries : list (path * node)) : M unit := λ w,
  Ret tt (record (EvUnzip zip dest) (with_fs (unpack_into dest entries (fs w)) w)).

Definition nl : string := String (ascii_of_nat 10) EmptyString.

(** ** Updater::checkVersion *)

(** The progress report of one iteration, shared by the two download loops:
[[
  if(getter.total != 0) {
    int prog = (int)(getter.current*100.0/getter.total);
    if(prog >= 100) prog=99;
    res = update(prog);
  } else res = pulse();
]]
    The quotient is taken in double precision and truncated by the cast;
    [Z.quot] is that value as long as the product and the quotient are
    exactly representable, which holds for byte counts below 2^46. *)
Definition percent (current total : Z) : Z :=
  let prog := Z.quot (current * 100) total in
  if bool_decide (100 ≤ prog) then 99 else prog.

Definition show_progress (t : Tick) : M bool :=
  if bool_decide (tk_total t ≠ 0)
  then update (percent (tk_current t) (tk_total t)) (tk_ui t)
  else pulse (tk_ui t).

(** The poll loop of [checkVersion]; it returns the status the job has when
    the loop is left. *)
Fixpoint check_poll (ticks : list Tick) : M JobStatus :=
  match ticks with
  | [] => hang
  | t :: rest =>
      res ← show_progress t;
      if negb res then
        abort ;;
        modify (with_offline true) ;;
        mret (tk_status t)
      else if isFinished (tk_status t) then mret (tk_status t)
      else check_poll rest
  end.

Definition check_msg : string :=
  "Checking for updates" +:+ nl +:+ nl +:+
  "Press 'Cancel' to run Tiggit in offline mode.".

Definition checkVersion (env : Env) (job : FetchScript)
    (url : string) (ti : TigInfo) (ver : string) : M (bool * TigInfo) :=
  setMsg check_msg ;;
  base ← gets gett_base;
  let file := tmp_get env base "ver.tmp" in
  run_download url file ;;
  st ← check_poll (fj_ticks job);
  off ← gets offline;
  if (negb (isSuccess st) || off)%bool then mret (true, ti)
  else
    match fj_decode job with
    | DecFail => mret (true, ti)
    | DecThrow => mret (true, ti)
    | DecOk ti' =>
        if bool_decide (ver = ti_version ti') then mret (true, ti')
        else mret (false, ti')
    end.

(** ** Updater::doUpdate *)

Fixpoint update_poll (ticks : list Tick) : M JobStatus :=
  match ticks with
  | [] => hang
  | t :: rest =>
      res ← show_progress t;
      (if negb res then abort else mret tt) ;;
      if isFinished (tk_status t) then mret (tk_status t)
      else update_poll rest
  end.

Fixpoint unzip_poll (polls : list JobStatus) : M JobStatus :=
  match polls with
  | [] => hang
  | s :: rest => if isFinished s then mret s else unzip_poll rest
  end.

Definition doUpdate (env : Env) (job : UpdateScript)
    (url : string) (up_dest : path) (vermsg : string) : M bool :=
  setMsg (vermsg +:+ nl +:+ url) ;;
  base ← gets gett_base;
  let zip := getPath env base "update.zip" in
  run_download url zip ;;
  st ← update_poll (us_ticks job);
  if isNonSuccess st then mret false
  else
    setMsg (vermsg +:+ nl +:+ "Unpacking...") ;;
    run_unzip zip up_dest (us_entries job) ;;
    st' ← unzip_poll (us_zip_polls job);
    if isNonSuccess st' then mret false
    else mret true.

(** ** Updater::doAutoUpdate *)

(** The paths [doAutoUpdate] derives from the running executable. *)
Definition install_dir (this_exe : path) : path := parent_path this_exe.
Definition updater_exe_of (this_path : path) : path := this_path // "update.exe".
Definition up_dest_of (this_path : path) : path := this_path // "update".

(** The spec's InstallPaths, as [doAutoUpdate] computes them. *)
Record InstallPaths := {
  currentExePath : path;
  installDir : path;
  stagingDir : path;
  updaterExePath : path
}.

Definition install_paths (this_exe : path) : InstallPaths :=
  {| currentExePath := this_exe;
     installDir := install_dir this_exe;
     stagingDir := up_dest_of (install_dir this_exe);
     updaterExePath := updater_exe_of (install_dir this_exe) |}.

(** [wxExecute(cmd)]: the command and the value the call returns. *)
Definition execute (env : Env) (cmd : path) : M Z :=
  emit (EvExec cmd) ;; mret (wxExecute env cmd).

(** The loop over [directory_iterator iter(this_path)] in the updater role. *)
Fixpoint copy_entries (new_path : path) (entries : list path) : M unit :=
  match entries with
  | [] => mret tt
  | p :: rest =>
      reg ← gets (λ w, is_regular_file (fs w) p);
      (if reg : bool then copyLog p (new_path // leaf p) else mret tt) ;;
      copy_entries new_path rest
  end.

(** The copy step of the updater role ("Is the directory the same?"). *)
Definition copy_update (this_exe this_path new_exe new_path : path) : M unit :=
  if bool_decide (new_path = this_path) then copyLog this_exe new_exe
  else
    entries ← gets (λ w, dir_entries (fs w) this_path);
    copy_entries new_path entries.

(** The updater role: the running executable is [update.exe]. *)
Definition run_updater (env : Env) (this_exe this_path : path) : M bool :=
  let new_exe := this_path // "tiggit.exe" in
  log ("Updating to new_exe=" +:+ path_string new_exe) ;;
  setMsg "Installing update..." ;;
  let new_path := parent_path new_exe in
  copy_update this_exe this_path new_exe new_path ;;
  log ("Running " +:+ path_string new_exe) ;;
  execute env new_exe ;;
  mret true.

(** "Kill update remains if there are any"; returns [didClean]. *)
Definition clean_remains (updater_exe up_dest : path) : M bool :=
  a ← exists_ up_dest;
  b ← exists_ updater_exe;
  if (a || b)%bool then
    setMsg "Cleaning up..." ;;
    log ("Cleaning up " +:+ path_string updater_exe +:+ " and "
         +:+ path_string up_dest +:+ "/") ;;
    a' ← exists_ up_dest;
    (if a' : bool then remove_all up_dest else mret tt) ;;
    b' ← exists_ updater_exe;
    (if b' : bool then remove updater_exe else mret tt) ;;
    mret true
  else mret false.

(** "Get current version": [if(inf) inf >> version;]. *)
Definition read_version (this_path : path) : M unit :=
  modify (λ w, match read_token (fs w) (this_path // "version") with
               | Some v => with_version v w
               | None => w
               end).

(** "Figure out what to run at this point", then run it. *)
Definition launch_update (env : Env) (this_path up_dest updater_exe : path)
    (newDlls : bool) : M bool :=
  let run := up_dest // "tiggit.exe" in
  run ← (if negb newDlls then
           copyLog run updater_exe ;;
           copyLog (up_dest // "version") (this_path // "version") ;;
           mret updater_exe
         else mret run);
  log ("Running " +:+ path_string run) ;;
  res ← execute env run;
  if bool_decide (res = -1) then mret false
  else mret true.

(** "Check if there are any new dll files as well", up to the launch. *)
Definition update_dlls_and_launch (env : Env) (this_path up_dest updater_exe : path)
    (ti : TigInfo) (vermsg : string) : M bool :=
  dll_version ← gets (λ w, default "" (read_token (fs w) (this_path // "dll_version")));
  r ← checkVersion env (dll_check env) "http://tiggit.net/client/dlls.tig" ti dll_version;
  if negb r.1 then
    log ("Upgrading dll-pack version " +:+ dll_version +:+ " => " +:+ ti_version r.2) ;;
    ok ← doUpdate env (dll_update env) (ti_url r.2) up_dest vermsg;
    if negb ok then mret false
    else launch_update env this_path up_dest updater_exe true
  else launch_update env this_path up_dest updater_exe false.

(** The main-application role, after the remains of an earlier update
    have been looked for. *)
Definition check_and_update (env : Env) (this_path up_dest updater_exe : path) : M bool :=
  test ← exists_ (this_path // "use_test_url");
  let lurl := if test : bool then "http://tiggit.net/client/latest_test.tig"
              else "http://tiggit.net/client/latest.tig" in
  log ("Fetching " +:+ lurl) ;;
  ver ← gets version;
  r ← checkVersion env (app_check env) lurl {| ti_version := ""; ti_url := "" |} ver;
  if r.1 : bool then
    log ("Version " +:+ ver +:+ " up-to-date") ;;
    mret false
  else
    log ("Upgrading version " +:+ ver +:+ " => " +:+ ti_version r.2) ;;
    let vermsg := "Downloading latest update, please wait..." +:+ nl
                  +:+ ver +:+ " -> " +:+ ti_version r.2 in
    ok ← doUpdate env (app_update env) (ti_url r.2) up_dest vermsg;
    if negb ok then mret false
    else update_dlls_and_launch env this_path up_dest updater_exe r.2 vermsg.

Definition doAutoUpdate (env : Env) (this_exe : path) : M bool :=
  if bool_decide (Z.land (wxGetOsVersion env) wxOS_WINDOWS = 0) then mret false
  else
    override ← exists_ (parent_path this_exe // "override");
    if override : bool then mret false
    else
      let this_path := install_dir this_exe in
      modify (with_base this_path) ;;
      log ("this_exe=" +:+ path_string this_exe) ;;
      if bool_decide (leaf this_exe = "update.exe") then
        run_updater env this_exe this_path
      else
        let updater_exe := updater_exe_of this_path in
        let up_dest := up_dest_of this_path in
        didClean ← clean_remains updater_exe up_dest;
        read_version this_path ;;
        if didClean : bool then mret false
        else check_and_update env this_path up_dest updater_exe.

(** ** What the poll loops do with a script *)

(** The progress call of one iteration. *)
Definition progress_event (t : Tick) : Event :=
  if bool_decide (tk_total t ≠ 0)
  then EvUpdate (percent (tk_current t) (tk_total t))
  else EvPulse.

(** How the loop of [checkVersion] is left: the job status at that moment
    and whether it was left through Cancel; [None] when the observations run
    out first. *)
Fixpoint check_leave (ticks : list Tick) : option (JobStatus * bool) :=
  match ticks with
  | [] => None
  | t :: rest =>
      if negb (tk_ui t) then Some (tk_status t, true)
      else if isFinished (tk_status t) then Some (tk_status t, false)
      else check_leave rest
  end.

(** The actions of the loop of [checkVersion]. *)
Fixpoint check_events (ticks : list Tick) : list Event :=
  match ticks with
  | [] => []
  | t :: rest =>
      progress_event t ::
      (if negb (tk_ui t) then [EvAbort]
       else if isFinished (tk_status t) then []
       else check_events rest)
  end.

(** How the download loop of [doUpdate] is left. *)
Fixpoint update_leave (ticks : list Tick) : option JobStatus :=
  match ticks with
  | [] => None
  | t :: rest =>
      if isFinished (tk_status t) then Some (tk_status t)
      else update_leave rest
  end.

Fixpoint update_events (ticks : list Tick) : list Event :=
  match ticks with
  | [] => []
  | t :: rest =>
      progress_event t ::
      ((if negb (tk_ui t) then [EvAbort] else []) ++
       (if isFinished (tk_status t) then [] else update_events rest))%list
  end.

(** How the unpack loop of [doUpdate] is left. *)
Fixpoint unzip_leave (polls : list JobStatus) : option JobStatus :=
  match polls with
  | [] => None
  | s :: rest => if isFinished s then Some s else unzip_leave rest
  end.

(** What [checkVersion] answers for a script, a local version and the value
    of [offline] on entry; [None] when its loop is never left. *)
Definition check_verdict (job : FetchScript) (ver : string) (off : bool) : option bool :=
  match check_leave (fj_ticks job) with
  | None => None
  | Some (st, canceled) =>
      Some (negb (isSuccess st) || (canceled || off) ||
            match fj_decode job with
            | DecOk ti' => bool_decide (ver = ti_version ti')
            | _ => true
            end)%bool
  end.

(** What [doUpdate] answers for a script. *)
Definition update_verdict (job : UpdateScript) : option bool :=
  match update_leave (us_ticks job) with
  | None => None
  | Some st =>
      if isNonSuccess st then Some false
      else match unzip_leave (us_zip_polls job) with
           | None => None
           | Some st' => Some (negb (isNonSuccess st'))
           end
  end.

(** The world an outcome carries, and the actions added since [w]. *)
Definition out_world {A} (o : outcome A) : World :=
  match o with Ret _ w | Throw w | Hang w => w end.

Definition new_events {A} (w : World) (o : outcome A) : list Event :=
  drop (length (trace w)) (trace (out_world o)).

Definition is_copy (e : Event) : bool :=
  match e with EvCopy _ _ => true | _ => false end.

Definition is_exec (e : Event) : bool :=
  match e with EvExec _ => true | _ => false end.

Definition is_fetch (e : Event) : bool :=
  match e with EvFetch _ _ => true | _ => false end.

(** Actions that change files: removals, copies and unpacking. *)
Definition is_write (e : Event) : bool :=
  match e with
  | EvRemove _ | EvRemoveAll _ | EvCopy _ _ | EvUnzip _ _ => true
  | _ => false
  end.

(** The version the updater compares with the application manifest: the
    token of the version marker when there is one, the field otherwise. *)
Definition local_version (this_path : path) (w : World) : string :=
  default (version w) (read_token (fs w) (this_path // "version")).

Definition local_dll_version (this_path : path) (f : filesystem) : string :=
  default "" (read_token f (this_path // "dll_version")).

Definition latest_url (this_path : path) (f : filesystem) : string :=
  if fs_exists f (this_path // "use_test_url")
  then "http://tiggit.net/client/latest_test.tig"
  else "http://tiggit.net/client/latest.tig".

(** The gates in front of the main-application role: Windows, no override
    file, not running as [update.exe]. *)
Definition main_role (env : Env) (this_exe : path) (w : World) : Prop :=
  Z.land (wxGetOsVersion env) wxOS_WINDOWS ≠ 0 ∧
  fs (w) !! (parent_path this_exe // "override") = None ∧
  leaf this_exe ≠ "update.exe".

(** No remains of an earlier update. *)
Definition no_remains (this_exe : path) (w : World) : Prop :=
  fs w !! up_dest_of (install_dir this_exe) = None ∧
  fs w !! updater_exe_of (install_dir this_exe) = None.

(** [w] followed by the actions [evs], with the [offline] flag raised when
    [c] holds. *)
Definition after (evs : list Event) (c : bool) (w : World) : World :=
  {| fs := fs w; version := version w; offline := (c || offline w)%bool;
     gett_base := gett_base w; trace := (trace w ++ evs)%list |}.

(** The actions of [checkVersion] on a script. *)
Definition check_trace (env : Env) (job : FetchScript) (url : string) (w : World) : list Event :=
  [EvMsg check_msg; EvFetch url (tmp_get env (gett_base w) "ver.tmp")]
  ++ check_events (fj_ticks job).

(** The state [doUpdate] leaves when it got as far as unpacking. *)
Definition staged (env : Env) (job : UpdateScript) (url : string)
    (up_dest : path) (vermsg : string) (w : World) : World :=
  let zip := getPath env (gett_base w) "update.zip" in
  with_fs (unpack_into up_dest (us_entries job) (fs w))
    (after ([EvMsg (vermsg +:+ nl +:+ url); EvFetch url zip]
            ++ update_events (us_ticks job)
            ++ [EvMsg (vermsg +:+ nl +:+ "Unpacking..."); EvUnzip zip up_dest])
       false w).

(** The state [doUpdate] leaves when the download did not succeed. *)
Definition not_staged (env : Env) (job : UpdateScript) (url : string)
    (vermsg : string) (w : World) : World :=
  let zip := getPath env (gett_base w) "update.zip" in
  after ([EvMsg (vermsg +:+ nl +:+ url); EvFetch url zip]
         ++ update_events (us_ticks job)) false w.

(** The state in which the main-application role starts its work: base
    directory set, first log line written, version marker read. *)
Definition entered (this_exe : path) (w : World) : World :=
  {| fs := fs w;
     version := local_version (install_dir this_exe) w;
     offline := offline w;
     gett_base := install_dir this_exe;
     trace := (trace w ++ [EvLog ("this_exe=" +:+ path_string this_exe)])%list |}.

(** The actions of one [copyLog] call that succeeds on file system [f]. *)
Definition copy_log_events (f : filesystem) (from to : path) : list Event :=
  [EvLog ("Copy: " +:+ path_string from +:+ " => " +:+ path_string to)]
  ++ (if fs_exists f to then [EvRemove to] else [])
  ++ [EvCopy from to].

(** The file system and the actions of the cleaning step. *)
Definition cleaned (f : filesystem) (updater_exe up_dest : path) : filesystem :=
  delete updater_exe (if fs_exists f up_dest then fs_remove_all f up_dest else f).

Definition clean_events (f : filesystem) (updater_exe up_dest : path) : list Event :=
  [EvMsg "Cleaning up...";
   EvLog ("Cleaning up " +:+ path_string updater_exe +:+ " and "
          +:+ path_string up_dest +:+ "/")]
  ++ (if fs_exists f up_dest then [EvRemoveAll up_dest] else [])
  ++ (if fs_exists f updater_exe then [EvRemove updater_exe] else []).

(** The message shown while an archive is downloaded. *)
Definition vermsg_of (ver : string) (ti : TigInfo) : string :=
  "Downloading latest update, please wait..." +:+ nl
  +:+ ver +:+ " -> " +:+ ti_version ti.

(** The actions of the main-application role up to the point where the
    new application has been unpacked into the staging directory, and the
    state at that point. *)
Definition app_staged_events (env : Env) (this_exe : path) (w : World) (ti : TigInfo) : list Event :=
  let this_path := install_dir this_exe in
  let ver := local_version this_path w in
  let lurl := latest_url this_path (fs w) in
  let vermsg := vermsg_of ver ti in
  [EvLog ("this_exe=" +:+ path_string this_exe); EvLog ("Fetching " +:+ lurl);
   EvMsg check_msg; EvFetch lurl (tmp_get env this_path "ver.tmp")]
  ++ check_events (fj_ticks (app_check env))
  ++ [EvLog ("Upgrading version " +:+ ver +:+ " => " +:+ ti_version ti);
      EvMsg (vermsg +:+ nl +:+ ti_url ti);
      EvFetch (ti_url ti) (getPath env this_path "update.zip")]
  ++ update_events (us_ticks (app_update env))
  ++ [EvMsg (vermsg +:+ nl +:+ "Unpacking...");
      EvUnzip (getPath env this_path "update.zip") (up_dest_of this_path)].

Definition app_staged (env : Env) (this_exe : path) (w : World) (ti : TigInfo) : World :=
  let this_path := install_dir this_exe in
  {| fs := unpack_into (up_dest_of this_path) (us_entries (app_update env)) (fs w);
     version := local_version this_path w;
     offline := offline w;
     gett_base := this_path;
     trace := (trace w ++ app_staged_events env this_exe w ti)%list |}.

(** A computation that launches nothing, however it ends. *)
Definition no_exec {A} (m : M A) : Prop :=
  ∀ w, ∃ evs, trace (out_world (m w)) = (trace w ++ evs)%list ∧
              List.filter is_exec evs = [].

(** A computation that returns false whenever a launch it made failed to
    start ([wxExecute] returned -1). *)
Definition launch_checked (env : Env) (m : M bool) : Prop :=
  ∀ w, ∃ evs, trace (out_world (m w)) = (trace w ++ evs)%list ∧
              ∀ cmd, EvExec cmd ∈ evs → wxExecute env cmd = -1 →
                     ∃ w', m w = Ret false w'.

(** Two paths with the same parent. *)
Definition siblings (a b : path) : Prop := a ≠ b ∧ parent_path a = parent_path b.

(** ** A concrete installation, used to run the definitions *)

Definition ex_dir : path := ["C:"; "tiggit"].
Definition ex_exe : path := ex_dir // "tiggit.exe".

(** Version 1.4.0 installed, no remains of an update. *)
Definition ex_fs : filesystem :=
  <[ex_dir // "tiggit.exe" := File "tiggit 1.4.0"]>
  (<[ex_dir // "version" := File "1.4.0"]>
  (<[ex_dir := Dir]> ∅)).

Definition ex_tick (total current : Z) (ui : bool) (st : JobStatus) : Tick :=
  {| tk_total := total; tk_current := current; tk_ui := ui; tk_status := st |}.

(** A fetch that completes and decodes to version [v]. *)
Definition ex_fetch (v url : string) : FetchScript :=
  {| fj_ticks := [ex_tick 0 0 true Busy; ex_tick 120 60 true Busy; ex_tick 120 120 true Done];
     fj_decode := DecOk {| ti_version := v; ti_url := url |} |}.

(** A fetch the user cancels at the first poll. *)
Definition ex_fetch_canceled : FetchScript :=
  {| fj_ticks := [ex_tick 0 0 false Busy];
     fj_decode := DecFail |}.

(** A fetch that ends in a transfer error. *)
Definition ex_fetch_error : FetchScript :=
  {| fj_ticks := [ex_tick 0 0 true Busy; ex_tick 0 0 true Error];
     fj_decode := DecFail |}.

(** An archive that downloads and unpacks to the given entries. *)
Definition ex_archive (entries : list (path * node)) : UpdateScript :=
  {| us_ticks := [ex_tick 0 0 true Busy; ex_tick 4000 1000 true Busy; ex_tick 4000 4000 true Done];
     us_zip_polls := [Busy; Done];
     us_entries := entries |}.

Definition ex_app_entries : list (path * node) :=
  [([], Dir); (["tiggit.exe"], File "tiggit 1.5.0"); (["version"], File "1.5.0")].

Definition ex_dll_entries : list (path * node) :=
  [(["wx.dll"], File "wx 2"); (["dll_version"], File "2")].

(** Windows NT; version 1.5.0 is published, the library bundle is unchanged;
    the launch returns a process id. *)
Definition ex_env : Env :=
  {| wxGetOsVersion := 8;
     tmp_get := λ base name, base // "tmp" // name;
     getPath := λ base name, base // name;
     app_check := ex_fetch "1.5.0" "http://host/app-1.5.0.zip";
     app_update := ex_archive ex_app_entries;
     dll_check := ex_fetch "" "http://host/dlls.zip";
     dll_update := ex_archive ex_dll_entries;
     wxExecute := λ _, 4242 |}.

Definition with_os (os : Z) (env : Env) : Env :=
  {| wxGetOsVersion := os; tmp_get := tmp_get env; getPath := getPath env;
     app_check := app_check env; app_update := app_update env;
     dll_check := dll_check env; dll_update := dll_update env;
     wxExecute := wxExecute env |}.

Definition with_app_check (job : FetchScript) (env : Env) : Env :=
  {| wxGetOsVersion := wxGetOsVersion env; tmp_get := tmp_get env; getPath := getPath env;
     app_check := job; app_update := app_update env;
     dll_check := dll_check env; dll_update := dll_update env;
     wxExecute := wxExecute env |}.

Definition with_dll_check (job : FetchScript) (env : Env) : Env :=
  {| wxGetOsVersion := wxGetOsVersion env; tmp_get := tmp_get env; getPath := getPath env;
     app_check := app_check env; app_update := app_update env;
     dll_check := job; dll_update := dll_update env;
     wxExecute := wxExecute env |}.


(** ** Further notions used to state what the updater never does *)


(** A computation that never clears the [offline] flag. *)
Definition keeps_offline {A} (m : M A) : Prop :=
  ∀ w, offline w = true → offline (out_world (m w)) = true.

(** A computation that only adds actions to those made so far. *)
Definition extends_trace {A} (m : M A) : Prop :=
  ∀ w, ∃ evs, trace (out_world (m w)) = (trace w ++ evs)%list.


(** [remove(p)] throws: [p] is a directory that still has entries. *)
Definition dir_with_entries (f : filesystem) (p : path) : bool :=
  match f !! p with Some Dir => has_entries f p | _ => false end.

(** The condition under which [copyLog(from, to)] returns. *)
Definition can_copy (f : filesystem) (from to : path) : bool :=
  (is_regular_file f from && negb (bool_decide (from = to))
   && negb (dir_with_entries f to))%bool.

Definition with_app_update (job : UpdateScript) (env : Env) : Env :=
  {| wxGetOsVersion := wxGetOsVersion env; tmp_get := tmp_get env; getPath := getPath env;
     app_check := app_check env; app_update := job;
     dll_check := dll_check env; dll_update := dll_update env;
     wxExecute := wxExecute env |}.

(** An archive that holds only a read-me. *)
Definition ex_readme_entries : list (path * node) :=
  [([], Dir); (["readme.txt"], File "hello")].


(** A computation that starts no download, however it ends. *)
Definition no_fetch {A} (m : M A) : Prop :=
  ∀ w, ∃ evs, trace (out_world (m w)) = (trace w ++ evs)%list ∧
              List.filter is_fetch evs = [].

(** Run from [w], the downloads of [m] are the first so many of [l]. *)
Definition plans {A} (m : M A) (w : World) (l : list Event) : Prop :=
  ∃ evs, trace (out_world (m w)) = (trace w ++ evs)%list ∧
         List.filter is_fetch evs `prefix_of` l.

(** Run from [w], [m] makes the action [e]. *)
Definition occurs {A} (e : Event) (m : M A) (w : World) : Prop :=
  ∃ evs, trace (out_world (m w)) = (trace w ++ evs)%list ∧ e ∈ evs.

(** The archive URL announced by the manifest of a channel. *)
Definition manifest_url (job : FetchScript) : string :=
  match fj_decode job with DecOk ti => ti_url ti | _ => "" end.

(** The downloads of a complete run as the main application, in order:
    application manifest, application archive, library manifest, library
    archive. *)
Definition fetch_plan (env : Env) (this_path : path) (f : filesystem) : list Event :=
  [EvFetch (latest_url this_path f) (tmp_get env this_path "ver.tmp");
   EvFetch (manifest_url (app_check env)) (getPath env this_path "update.zip");
   EvFetch "http://tiggit.net/client/dlls.tig" (tmp_get env this_path "ver.tmp");
   EvFetch (manifest_url (dll_check env)) (getPath env this_path "update.zip")].


(** * The configuration file (config.hpp) *)

Module Cfg.

Definition LAST_CACHE_VERSION : Z := 1.

(** [struct Config].  [filename] is kept as a path; [lastTime] is an
    [int64_t], on which the code only compares and assigns. *)
Record Config := mkConfig {
  filename : path;
  gamedir : string;
  updateList : bool;
  updateTigs : bool;
  updateCache : bool;
  first_time : bool;
  debug : bool;
  seen_demo_msg : bool;
  has_asked_dirs : bool;
  lastTime : Z
}.

(** The constructor [Config()]. *)
Definition new_config : Config :=
  {| filename := []; gamedir := "";
     updateList := false; updateTigs := false; updateCache := false;
     first_time := false; debug := false; seen_demo_msg := false;
     has_asked_dirs := false;
     lastTime := 0x7fffffffffff |}.

Definition set_filename (v : path) (c : Config) : Config :=
  let 'mkConfig _ gd ul ut uc ft db sd ha lt := c in
  mkConfig v gd ul ut uc ft db sd ha lt.

Definition set_gamedir (v : string) (c : Config) : Config :=
  let 'mkConfig fn _ ul ut uc ft db sd ha lt := c in
  mkConfig fn v ul ut uc ft db sd ha lt.

Definition set_updateList (v : bool) (c : Config) : Config :=
  let 'mkConfig fn gd _ ut uc ft db sd ha lt := c in
  mkConfig fn gd v ut uc ft db sd ha lt.

Definition set_updateCache (v : bool) (c : Config) : Config :=
  let 'mkConfig fn gd ul ut _ ft db sd ha lt := c in
  mkConfig fn gd ul ut v ft db sd ha lt.

Definition set_first_time (v : bool) (c : Config) : Config :=
  let 'mkConfig fn gd ul ut uc _ db sd ha lt := c in
  mkConfig fn gd ul ut uc v db sd ha lt.

Definition set_debug (v : bool) (c : Config) : Config :=
  let 'mkConfig fn gd ul ut uc ft _ sd ha lt := c in
  mkConfig fn gd ul ut uc ft v sd ha lt.

Definition set_seen_demo_msg (v : bool) (c : Config) : Config :=
  let 'mkConfig fn gd ul ut uc ft db _ ha lt := c in
  mkConfig fn gd ul ut uc ft db v ha lt.

Definition set_has_asked_dirs (v : bool) (c : Config) : Config :=
  let 'mkConfig fn gd ul ut uc ft db sd _ lt := c in
  mkConfig fn gd ul ut uc ft db sd v lt.

Definition set_lastTime (v : Z) (c : Config) : Config :=
  let 'mkConfig fn gd ul ut uc ft db sd ha _ := c in
  mkConfig fn gd ul ut uc ft db sd ha v.

(** The conversion [(int)x] of a 64-bit value: the low 32 bits, read as a
    signed number. *)
Definition to_int (z : Z) : Z := (z + 2 ^ 31) mod 2 ^ 32 - 2 ^ 31.

Arguments to_int : simpl never.

(** The document that [write] builds, member by member. *)
Record JsonRoot := {
  j_repo_version : string;
  j_last_time : Z;
  j_seen_demo_msg : bool;
  j_has_asked_dirs : bool;
  j_cache_version : Z;
  j_debug : bool;
  j_gamedir : string
}.

(** One call [writeJson(filename, root)]. *)
Definition Written : Type := path * JsonRoot.

(** [write()]: the document handed to [writeJson]. *)
Definition write (c : Config) : JsonRoot :=
  {| j_repo_version := "3";
     j_last_time := to_int (lastTime c);
     j_seen_demo_msg := seen_demo_msg c;
     j_has_asked_dirs := has_asked_dirs c;
     j_cache_version := 1;
     j_debug := debug c;
     j_gamedir := gamedir c |}.

Definition do_write (c : Config) : Config * list Written :=
  (c, [(filename c, write c)]).

Definition setLastTime (newTime : Z) (c : Config) : Config * list Written :=
  if newTime >? lastTime c then do_write (set_lastTime newTime c)
  else (c, []).

Definition setAskedDirs (c : Config) : Config * list Written :=
  if negb (has_asked_dirs c) then do_write (set_has_asked_dirs true c)
  else (c, []).

Definition shown_demo_msg (c : Config) : Config * list Written :=
  if negb (seen_demo_msg c) then do_write (set_seen_demo_msg true c)
  else (c, []).

Definition setGameDir (name : string) (c : Config) : Config * list Written :=
  do_write (set_gamedir name c).

(** What [load] asks of the document that [readJson] returned: the
    comparison [root["repo_version"] != "3"] and the six conversions, each
    of which returns a value or throws ([None]). *)
Record JsonReads := {
  repo_version_differs : bool;
  as_last_time : option Z;
  as_seen_demo_msg : option bool;
  as_has_asked_dirs : option bool;
  as_debug : option bool;
  as_gamedir : option string;
  as_cache_version : option Z
}.

(** An existing config file, as [load] looks at it: the word that
    [f >> repo] leaves (empty when there is none), and what [readJson]
    makes of the file ([None] when it throws, or when the first look-up in
    what it returned does: either way the [catch] is entered before any
    member is assigned). *)
Record ConfigFile := {
  first_word : string;
  readJson : option JsonReads
}.

(** The body of the [try] block after the version comparison; the second
    component tells whether a conversion threw.  The members assigned
    before a throw keep their new values. *)
Definition try_load (root : JsonReads) (c : Config) : Config * bool :=
  match as_last_time root with
  | None => (c, true)
  | Some t =>
  let c := set_lastTime t c in
  match as_seen_demo_msg root with
  | None => (c, true)
  | Some b =>
  let c := set_seen_demo_msg b c in
  match as_has_asked_dirs root with
  | None => (c, true)
  | Some b =>
  let c := set_has_asked_dirs b c in
  match as_debug root with
  | None => (c, true)
  | Some b =>
  let c := set_debug b c in
  match as_gamedir root with
  | None => (c, true)
  | Some g =>
  let c := set_gamedir g c in
  let c := if bool_decide (gamedir c = "") then set_gamedir "games" c else c in
  match as_cache_version root with
  | None => (c, true)
  | Some cache =>
  let c := if cache <? LAST_CACHE_VERSION then set_updateCache true c else c in
  let c := if lastTime c <? 0 then set_lastTime 0 c else c in
  (c, false)
  end end end end end end.

(** [load(where)]; [file] is [None] when [exists(filename)] is false. *)
Definition load (where_ : path) (file : option ConfigFile) (c : Config)
    : Config * list Written :=
  let c := set_filename (where_ // "config") c in
  let '(c, error) :=
    match file with
    | None => (set_updateCache true (set_first_time true c), true)
    | Some f =>
        let repo := first_word f in
        if (bool_decide (repo = "") || bool_decide (repo = "1")
            || bool_decide (repo = "2"))%bool
        then (c, true)
        else
          match readJson f with
          | None => (c, true)
          | Some root =>
              let error := repo_version_differs root in
              let '(c, threw) := try_load root c in
              (c, (error || threw)%bool)
          end
    end in
  let c := if error : bool then set_updateList true c else c in
  do_write c.

(** A run of [setLastTime] calls, with the documents written on the way. *)
Definition setLastTimes (times : list Z) (c : Config) : Config * list Written :=
  foldl (λ st t, let '(c', ws) := setLastTime t st.1 in (c', (st.2 ++ ws)%list))
        (c, []) times.

(** Whether [load] ends with its [error] flag set. *)
Definition load_error (file : option ConfigFile) : bool :=
  match file with
  | None => true
  | Some f =>
      (bool_decide (first_word f = "") || bool_decide (first_word f = "1")
       || bool_decide (first_word f = "2")
       || match readJson f with
          | None => true
          | Some root =>
              repo_version_differs root
              || negb (bool_decide (is_Some (as_last_time root)
                                    ∧ is_Some (as_seen_demo_msg root)
                                    ∧ is_Some (as_has_asked_dirs root)
                                    ∧ is_Some (as_debug root)
                                    ∧ is_Some (as_gamedir root)
                                    ∧ is_Some (as_cache_version root)))
          end)%bool
  end.

(** Modelled from the contract of the JSON layer, which is not part of the
    sources at hand: a document read back as it was written compares and
    converts member for member. *)
Definition reads_of (r : JsonRoot) : JsonReads :=
  {| repo_version_differs := negb (bool_decide (j_repo_version r = "3"));
     as_last_time := Some (j_last_time r);
     as_seen_demo_msg := Some (j_seen_demo_msg r);
     as_has_asked_dirs := Some (j_has_asked_dirs r);
     as_debug := Some (j_debug r);
     as_gamedir := Some (j_gamedir r);
     as_cache_version := Some (j_cache_version r) |}.

End Cfg.

(** * Ratings (tiglib/repo.cpp) *)

Module Repo.

(** The ratings store [rates] and the URLs handed to
    [Fetch::fetchString].  Modelled from its use, the class [JConfig] not
    being part of the sources at hand: a store of numbers by name, in which
    [has] tells whether a name is present, [getInt(id, def)] returns the
    number stored under [id], or [def] when there is none, and [setInt]
    stores one. *)
Record State := {
  rates : gmap string Z;
  fetched : list string
}.

(** [Repo::getRating]. *)
Definition getRating (id : string) (st : State) : Z :=
  let res := default (-1) (rates st !! id) in
  if ((res <? 0) || (res >? 5))%bool then -1 else res.

(** [char rateCh = '0' + rate;] *)
Definition rateCh (rate : Z) : ascii :=
  ascii_of_N (Z.to_N ((48 + rate) mod 256)).

(** [Repo::setRating]. *)
Definition setRating (id urlname : string) (rate : Z) (st : State) : State :=
  if ((rate <? 0) || (rate >? 5))%bool then st
  else if bool_decide (is_Some (rates st !! id)) then st
  else
    let url := "http://tiggit.net/api/count/" +:+ urlname +:+ "&rate=" in
    let url := url +:+ String (rateCh rate) EmptyString in
    {| rates := <[id := rate]> (rates st);
       fetched := (fetched st ++ [url])%list |}.

(** One call of [setRating]: game, URL name and rating. *)
Definition Vote : Type := string * string * Z.

(** A run of [setRating] calls. *)
Definition setRatings (votes : list Vote) (st : State) : State :=
  foldl (λ st v, setRating v.1.1 v.1.2 v.2 st) st votes.

(** The decimal digits, as the text that [rateCh] is meant to produce. *)
Definition digit (rate : Z) : string :=
  match rate with
  | 0 => "0" | 1 => "1" | 2 => "2" | 3 => "3" | 4 => "4" | 5 => "5"
  | 6 => "6" | 7 => "7" | 8 => "8" | _ => "9"
  end.

End Repo.

(** ** Proof automation *)

(** Unfold the monad and the primitives that never fail. *)
Ltac mred :=
  unfold mbind, M_bind, mret, M_ret, abort, run_download, log, setMsg,
    update, pulse, emit, modify, gets, exists_; simpl.

(** The field equalities left by [world_eq]. *)
Ltac fields :=
  simpl;
  repeat progress (rewrite <- ?app_assoc, ?orb_false_r; simpl);
  try reflexivity; auto.

Create Rewrite HintDb events.

(** Normalise the filters of a list of actions: rewrite with the [events]
    database, then decide the [exists] tests that remain. *)
Ltac quiet :=
  repeat progress (autorewrite with events; simpl);
  repeat match goal with
         | |- context [if fs_exists ?f ?p then _ else _] =>
             destruct (fs_exists f p); simpl
         end.

(** * Properties *)

(** ** Basic facts about the monad and the primitives *)

Lemma bind_Ret {A B} (m : M A) (f : A → M B) w a w' :
  m w = Ret a w' → (m ≫= f) w = f a w'.
Proof. intros H. unfold mbind, M_bind. now rewrite H. Qed.

Lemma bind_Throw {A B} (m : M A) (f : A → M B) w w' :
  m w = Throw w' → (m ≫= f) w = Throw w'.
Proof. intros H. unfold mbind, M_bind. now rewrite H. Qed.

Lemma bind_Hang {A B} (m : M A) (f : A → M B) w w' :
  m w = Hang w' → (m ≫= f) w = Hang w'.
Proof. intros H. unfold mbind, M_bind. now rewrite H. Qed.

Lemma world_eq w w' :
  fs w = fs w' → version w = version w' → offline w = offline w' →
  gett_base w = gett_base w' → trace w = trace w' → w = w'.
Proof. destruct w, w'; simpl; intros; subst; reflexivity. Qed.

Lemma after_nil w : after [] false w = w.
Proof. apply world_eq; simpl; auto using app_nil_r. Qed.

Lemma after_after evs1 c1 evs2 c2 w :
  after evs2 c2 (after evs1 c1 w) = after (evs1 ++ evs2) (c2 || c1) w.
Proof.
  apply world_eq; simpl; auto.
  - now rewrite orb_assoc.
  - now rewrite app_assoc.
Qed.

Lemma record_after e w : record e w = after [e] false w.
Proof. reflexivity. Qed.

Lemma show_progress_eq t w :
  show_progress t w = Ret (tk_ui t) (record (progress_event t) w).
Proof.
  unfold show_progress, progress_event.
  destruct (bool_decide (tk_total t ≠ 0)); reflexivity.
Qed.

Lemma check_poll_spec ticks w :
  check_poll ticks w =
  match check_leave ticks with
  | Some (st, c) => Ret st (after (check_events ticks) c w)
  | None => Hang (after (check_events ticks) false w)
  end.
Proof.
  revert w. induction ticks as [|t rest IH]; intros w; simpl.
  - now rewrite after_nil.
  - rewrite (bind_Ret _ _ _ _ _ (show_progress_eq t w)).
    destruct (tk_ui t); simpl.
    + destruct (isFinished (tk_status t)); [reflexivity|].
      rewrite IH, record_after.
      destruct (check_leave rest) as [[st c]|];
        now rewrite after_after, ?orb_false_r.
    + mred. f_equal. (apply world_eq; fields).
Qed.

Lemma update_poll_spec ticks w :
  update_poll ticks w =
  match update_leave ticks with
  | Some st => Ret st (after (update_events ticks) false w)
  | None => Hang (after (update_events ticks) false w)
  end.
Proof.
  revert w. induction ticks as [|t rest IH]; intros w; simpl.
  - now rewrite after_nil.
  - rewrite (bind_Ret _ _ _ _ _ (show_progress_eq t w)).
    destruct (tk_ui t); simpl; mred.
    + destruct (isFinished (tk_status t)); [reflexivity|].
      rewrite IH, record_after.
      destruct (update_leave rest); now rewrite after_after.
    + destruct (isFinished (tk_status t)); [f_equal; (apply world_eq; fields)|].
      rewrite IH.
      destruct (update_leave rest); f_equal; (apply world_eq; fields).
Qed.

Lemma unzip_poll_spec polls w :
  unzip_poll polls w =
  match unzip_leave polls with
  | Some st => Ret st w
  | None => Hang w
  end.
Proof.
  induction polls as [|s rest IH]; simpl; [reflexivity|].
  destruct (isFinished s); [reflexivity | exact IH].
Qed.

Lemma checkVersion_spec env job url ti ver w :
  checkVersion env job url ti ver w =
  match check_leave (fj_ticks job) with
  | None => Hang (after (check_trace env job url w) false w)
  | Some (st, c) =>
      let w' := after (check_trace env job url w) c w in
      if (negb (isSuccess st) || (c || offline w))%bool then Ret (true, ti) w'
      else match fj_decode job with
           | DecOk ti' => Ret (bool_decide (ver = ti_version ti'), ti') w'
           | _ => Ret (true, ti) w'
           end
  end.
Proof.
  unfold checkVersion, check_trace. mred.
  rewrite check_poll_spec.
  destruct (check_leave (fj_ticks job)) as [[st c]|]; simpl.
  - replace (after (check_events (fj_ticks job)) c _) with
      (after ([EvMsg check_msg; EvFetch url (tmp_get env (gett_base w) "ver.tmp")]
              ++ check_events (fj_ticks job)) c w) by (apply world_eq; fields).
    simpl.
    destruct (negb (isSuccess st) || (c || offline w))%bool; [reflexivity|].
    destruct (fj_decode job) as [ti'| |]; try reflexivity.
    destruct (bool_decide (ver = ti_version ti')); reflexivity.
  - f_equal. (apply world_eq; fields).
Qed.

Lemma doUpdate_spec env job url up_dest vermsg w :
  doUpdate env job url up_dest vermsg w =
  match update_leave (us_ticks job) with
  | None => Hang (not_staged env job url vermsg w)
  | Some st =>
      if isNonSuccess st then Ret false (not_staged env job url vermsg w)
      else match unzip_leave (us_zip_polls job) with
           | None => Hang (staged env job url up_dest vermsg w)
           | Some st' => Ret (negb (isNonSuccess st')) (staged env job url up_dest vermsg w)
           end
  end.
Proof.
  unfold doUpdate, staged, not_staged. mred.
  rewrite update_poll_spec.
  destruct (update_leave (us_ticks job)) as [st|]; simpl; [|f_equal; (apply world_eq; fields)].
  destruct (isNonSuccess st); [f_equal; (apply world_eq; fields)|].
  unfold run_unzip. mred. rewrite unzip_poll_spec.
  destruct (unzip_leave (us_zip_polls job)) as [st'|]; simpl.
  - destruct (isNonSuccess st'); simpl; f_equal; (apply world_eq; fields).
  - f_equal; (apply world_eq; fields).
Qed.

(** ** Paths *)

Lemma parent_path_cat p s : parent_path (p // s) = p.
Proof. apply removelast_last. Qed.

Lemma leaf_cat p s : leaf (p // s) = s.
Proof. apply last_last. Qed.

Lemma path_cat_inj p q s t : p // s = q // t → p = q ∧ s = t.
Proof. intros H. apply app_inj_tail in H. exact H. Qed.

Lemma below_cat p s : below p (p // s).
Proof.
  split.
  - now exists [s].
  - intros H. apply (f_equal length) in H. unfold path_cat in H.
    rewrite length_app in H. simpl in H. lia.
Qed.

Lemma not_prefix_cat p s t q : s ≠ t → ¬ (p // s) `prefix_of` (p // t ++ q)%list.
Proof.
  intros Hne [k Hk]. unfold path_cat in Hk.
  rewrite <- !app_assoc in Hk. apply app_inv_head in Hk.
  simpl in Hk. congruence.
Qed.

Lemma not_prefix_cat1 p s t : s ≠ t → ¬ (p // s) `prefix_of` (p // t).
Proof.
  intros Hne H. apply (not_prefix_cat p s t [] Hne). now rewrite app_nil_r.
Qed.

(** ** The operating-system gate *)

(** C10: on every operating system that is not a Windows family,
    [doAutoUpdate] returns false at once and leaves the whole state as it
    was: no cleanup, no read of the version marker, no fetch, no copy, no
    launch, whatever the role of the executable and whether or not an
    override file is present. *)
Theorem doAutoUpdate_non_windows env this_exe w :
  Z.land (wxGetOsVersion env) wxOS_WINDOWS = 0 →
  doAutoUpdate env this_exe w = Ret false w.
Proof.
  intros H. unfold doAutoUpdate.
  rewrite bool_decide_eq_true_2 by exact H. reflexivity.
Qed.

(** Linux ([wxOS_UNIX_LINUX], bit 6) with the remains of an update lying
    around and the executable named [update.exe]. *)
Lemma doAutoUpdate_non_windows_witness :
  let env := with_os 64 ex_env in
  let w := new_updater (<[ex_dir // "update" := Dir]> ex_fs) in
  Z.land (wxGetOsVersion env) wxOS_WINDOWS = 0 ∧
  doAutoUpdate env (ex_dir // "update.exe") w = Ret false w.
Proof.
  split; [reflexivity|].
  apply (doAutoUpdate_non_windows (with_os 64 ex_env)). reflexivity.
Defined.

(** ** InstallPaths *)

(** C7, as stated, fails: for the executable [C:/tiggit/tiggit.exe] the
    staging directory and the updater executable are not siblings of the
    install directory; both lie inside it. *)
Lemma install_paths_not_siblings :
  let ip := install_paths ex_exe in
  ¬ siblings (stagingDir ip) (installDir ip) ∧
  ¬ siblings (updaterExePath ip) (installDir ip) ∧
  below (installDir ip) (stagingDir ip) ∧
  below (installDir ip) (updaterExePath ip).
Proof.
  simpl. repeat split; try (now exists ["update"]); try (now exists ["update.exe"]);
    try discriminate; intros [_ H]; discriminate H.
Qed.

(** C7, amended: the four paths are functions of the running executable
    alone; the install directory is its parent, and the staging directory
    and the updater executable are two distinct entries of the install
    directory (its children [update] and [update.exe]), hence inside it. *)
Theorem install_paths_entries this_exe :
  let ip := install_paths this_exe in
  currentExePath ip = this_exe ∧
  installDir ip = parent_path this_exe ∧
  stagingDir ip = installDir ip // "update" ∧
  updaterExePath ip = installDir ip // "update.exe" ∧
  parent_path (stagingDir ip) = installDir ip ∧
  parent_path (updaterExePath ip) = installDir ip ∧
  below (installDir ip) (stagingDir ip) ∧
  below (installDir ip) (updaterExePath ip) ∧
  stagingDir ip ≠ updaterExePath ip.
Proof.
  simpl. unfold up_dest_of, updater_exe_of, install_dir.
  repeat split; auto using parent_path_cat.
  - now exists ["update"].
  - apply below_cat.
  - now exists ["update.exe"].
  - apply below_cat.
  - intros H. apply path_cat_inj in H. destruct H as [_ H]. discriminate H.
Qed.

(** ** Progress reporting *)

Lemma new_events_trace {A} w (o : outcome A) evs :
  trace (out_world o) = (trace w ++ evs)%list → new_events w o = evs.
Proof. intros H. unfold new_events. rewrite H. apply drop_app_length. Qed.


Lemma percent_min current total :
  percent current total = Z.min 99 (Z.quot (current * 100) total).
Proof. unfold percent. case_bool_decide; lia. Qed.

Lemma percent_lt_100 current total : percent current total < 100.
Proof. rewrite percent_min. lia. Qed.










(** ** The offline flag *)

Lemma fetch_in_check_trace env job url w :
  EvFetch url (tmp_get env (gett_base w) "ver.tmp") ∈ check_trace env job url w.
Proof. unfold check_trace. apply elem_of_app. left. right. left. Qed.

Lemma new_events_checkVersion env job url ti ver w :
  new_events w (checkVersion env job url ti ver w) = check_trace env job url w.
Proof.
  rewrite checkVersion_spec. apply new_events_trace.
  destruct (check_leave (fj_ticks job)) as [[st c]|]; [|reflexivity].
  simpl. destruct (negb (isSuccess st) || (c || offline w))%bool; [reflexivity|].
  now destruct (fj_decode job).
Qed.

(** C1, as stated, fails: after a canceled check has set [offline], the
    next check still starts its fetch and polls it three times before it
    answers. *)
Lemma checkVersion_offline_still_fetches :
  let ti0 := {| ti_version := ""; ti_url := "" |} in
  let w0 := new_updater ex_fs in
  let w1 := out_world (checkVersion ex_env ex_fetch_canceled
                         "http://tiggit.net/client/latest.tig" ti0 "1.4.0" w0) in
  let o2 := checkVersion ex_env (ex_fetch "1.5.0" "http://host/app-1.5.0.zip")
              "http://tiggit.net/client/dlls.tig" ti0 "1.4.0" w1 in
  offline w1 = true ∧
  o2 = Ret (true, ti0) (out_world o2) ∧
  new_events w1 o2 =
    [EvMsg check_msg;
     EvFetch "http://tiggit.net/client/dlls.tig" ["tmp"; "ver.tmp"];
     EvPulse; EvUpdate 50; EvUpdate 99].
Proof. vm_compute. repeat split. Qed.

(** C1, amended: a check the user cancels returns true and leaves [offline]
    set; every later check, entered with [offline] set, still starts the
    fetch of its manifest and runs its poll loop, and once that loop is
    left it returns true whatever the transfer and the manifest say, with
    [offline] still set. *)
Theorem checkVersion_offline :
  (∀ env job url ti ver w st,
     check_leave (fj_ticks job) = Some (st, true) →
     ∃ w', checkVersion env job url ti ver w = Ret (true, ti) w' ∧
           offline w' = true) ∧
  (∀ env job url ti ver w,
     offline w = true →
     let o := checkVersion env job url ti ver w in
     new_events w o =
       EvMsg check_msg :: EvFetch url (tmp_get env (gett_base w) "ver.tmp")
       :: check_events (fj_ticks job) ∧
     offline (out_world o) = true ∧
     match check_leave (fj_ticks job) with
     | Some _ => o = Ret (true, ti) (out_world o)
     | None => o = Hang (out_world o)
     end).
Proof.
  split.
  - intros env job url ti ver w st Hl.
    rewrite checkVersion_spec, Hl. simpl.
    rewrite orb_true_r. eexists. split; reflexivity.
  - intros env job url ti ver w Hoff o. subst o.
    rewrite new_events_checkVersion. split; [reflexivity|].
    rewrite checkVersion_spec.
    destruct (check_leave (fj_ticks job)) as [[st c]|]; simpl.
    + rewrite Hoff. repeat (rewrite ?orb_true_r; simpl).
      rewrite Hoff, orb_true_r. split; reflexivity.
    + now rewrite Hoff.
Qed.

Lemma checkVersion_offline_witness :
  let ti0 := {| ti_version := ""; ti_url := "" |} in
  let w0 := new_updater ex_fs in
  ∃ w1, checkVersion ex_env ex_fetch_canceled "http://tiggit.net/client/latest.tig"
          ti0 "1.4.0" w0 = Ret (true, ti0) w1 ∧ offline w1 = true.
Proof.
  apply (proj1 checkVersion_offline ex_env ex_fetch_canceled _ _ _ _ Busy).
  reflexivity.
Defined.

(** ** The file system *)

Lemma lookup_remove_all_below (f : filesystem) (p q : path) :
  p `prefix_of` q → fs_remove_all f p !! q = None.
Proof.
  intros Hp. unfold fs_remove_all. apply map_lookup_filter_None.
  right. intros x _ Hn. now apply Hn.
Qed.

Lemma lookup_remove_all_other (f : filesystem) (p q : path) :
  ¬ p `prefix_of` q → fs_remove_all f p !! q = f !! q.
Proof.
  intros Hp. unfold fs_remove_all.
  destruct (f !! q) as [x|] eqn:E.
  - apply map_lookup_filter_Some. split; [exact E | exact Hp].
  - apply map_lookup_filter_None. now left.
Qed.

Lemma lookup_unpack_into (d : path) (es : list (path * node)) (f : filesystem) (q : path) :
  ¬ d `prefix_of` q → unpack_into d es f !! q = f !! q.
Proof.
  intros Hq. induction es as [|e es IH]; simpl; [reflexivity|].
  rewrite lookup_insert_ne; [exact IH|].
  intros <-. apply Hq. now exists e.1.
Qed.

Lemma fs_remove_file (f : filesystem) p :
  f !! p ≠ Some Dir → fs_remove f p = Some (delete p f).
Proof.
  intros H. unfold fs_remove. destruct (f !! p) as [[c|]|]; congruence.
Qed.

Lemma fs_exists_true (f : filesystem) p : fs_exists f p = true ↔ is_Some (f !! p).
Proof.
  unfold fs_exists. destruct (f !! p); split; intros H;
    try reflexivity; try discriminate; eauto.
  now destruct H.
Qed.

Lemma fs_exists_false (f : filesystem) p : fs_exists f p = false ↔ f !! p = None.
Proof.
  unfold fs_exists. destruct (f !! p); split; intros H;
    try reflexivity; discriminate.
Qed.

(** ** copyLog *)


(** Sufficient for [copyLog] to return: the source is a regular file, the
    destination another path that is not a directory. *)
Lemma copyLog_ok from to w c :
  fs w !! from = Some (File c) → from ≠ to → fs w !! to ≠ Some Dir →
  copyLog from to w =
  Ret tt (with_fs (<[to := File c]> (fs w))
            (after (copy_log_events (fs w) from to) false w)).
Proof.
  intros Hf Hne Hd. unfold copyLog, copy_log_events. mred.
  destruct (fs_exists (fs w) to) eqn:Ex; simpl.
  - unfold remove. simpl. rewrite (fs_remove_file _ _ Hd).
    unfold copy_file, fs_copy_file, fs_exists. simpl.
    rewrite lookup_delete_ne by congruence. rewrite Hf, lookup_delete_eq.
    f_equal. apply world_eq; simpl; rewrite <- ?app_assoc; auto.
    now rewrite insert_delete_eq.
  - unfold copy_file, fs_copy_file. simpl. rewrite Hf, Ex.
    f_equal. apply world_eq; simpl; rewrite <- ?app_assoc; auto.
Qed.

(** ** Cleaning up the remains of an earlier update *)

Lemma clean_remains_spec updater_exe up_dest w :
  fs w !! updater_exe ≠ Some Dir →
  ¬ up_dest `prefix_of` updater_exe →
  clean_remains updater_exe up_dest w =
  if (fs_exists (fs w) up_dest || fs_exists (fs w) updater_exe)%bool
  then Ret true (with_fs (cleaned (fs w) updater_exe up_dest)
                   (after (clean_events (fs w) updater_exe up_dest) false w))
  else Ret false w.
Proof.
  intros Hd Hp. unfold clean_remains, cleaned, clean_events. mred.
  assert (fs_exists (fs_remove_all (fs w) up_dest) updater_exe
          = fs_exists (fs w) updater_exe) as Ex.
  { unfold fs_exists. now rewrite lookup_remove_all_other. }
  destruct (fs_exists (fs w) up_dest) eqn:Ed; simpl; rewrite ?Ed; simpl.
  - unfold remove_all. simpl. rewrite Ex.
    destruct (fs_exists (fs w) updater_exe) eqn:Eu; simpl.
    + unfold remove. simpl. rewrite fs_remove_file
        by now rewrite lookup_remove_all_other.
      f_equal. (apply world_eq; fields).
    + f_equal. (apply world_eq; fields). rewrite delete_id; [reflexivity|].
      rewrite lookup_remove_all_other by exact Hp. now apply fs_exists_false.
  - destruct (fs_exists (fs w) updater_exe) eqn:Eu; simpl; [|reflexivity].
    rewrite Ed. simpl. rewrite Eu.
    unfold remove. simpl. rewrite fs_remove_file by exact Hd.
    f_equal. (apply world_eq; fields).
Qed.

Lemma doAutoUpdate_main_role env this_exe w :
  main_role env this_exe w →
  doAutoUpdate env this_exe w =
  (didClean ← clean_remains (updater_exe_of (install_dir this_exe))
                 (up_dest_of (install_dir this_exe));
   read_version (install_dir this_exe) ;;
   if didClean : bool then mret false
   else check_and_update env (install_dir this_exe)
          (up_dest_of (install_dir this_exe))
          (updater_exe_of (install_dir this_exe)))
    (record (EvLog ("this_exe=" +:+ path_string this_exe))
       (with_base (install_dir this_exe) w)).
Proof.
  intros (Hos & Hov & Hleaf). unfold doAutoUpdate.
  rewrite bool_decide_eq_false_2 by exact Hos.
  mred. unfold fs_exists. rewrite Hov.
  rewrite bool_decide_eq_false_2 by exact Hleaf. reflexivity.
Qed.

(** C3, as stated, fails: the main application leaves a staging directory
    where it is when it does not run on Windows, and also when an override
    file lies beside the executable. *)
Lemma remains_kept_behind_gates :
  (let w := new_updater (<[ex_dir // "update" := Dir]> ex_fs) in
   doAutoUpdate (with_os 64 ex_env) ex_exe w = Ret false w ∧
   fs w !! (ex_dir // "update") = Some Dir) ∧
  (let w := new_updater (<[ex_dir // "override" := File ""]>
                           (<[ex_dir // "update" := Dir]> ex_fs)) in
   doAutoUpdate ex_env ex_exe w = Ret false w ∧
   fs w !! (ex_dir // "update") = Some Dir).
Proof. vm_compute. repeat split. Qed.

(** C3, amended: on Windows, with no override file beside the executable,
    a run in the main-application role that finds a staging directory or a
    leftover updater executable (a file, not a directory) removes both
    before anything else, and returns false at once: the actions of the run
    are its first log line, the cleaning message and log line, and the
    removals; there is no fetch, no unpacking, no copy and no launch. *)
Theorem clean_remains_first env this_exe w :
  let this_path := install_dir this_exe in
  let up_dest := up_dest_of this_path in
  let updater_exe := updater_exe_of this_path in
  main_role env this_exe w →
  fs_exists (fs w) up_dest = true ∨ fs_exists (fs w) updater_exe = true →
  fs w !! updater_exe ≠ Some Dir →
  ∃ w', doAutoUpdate env this_exe w = Ret false w' ∧
        new_events w (doAutoUpdate env this_exe w) =
          EvLog ("this_exe=" +:+ path_string this_exe)
          :: EvMsg "Cleaning up..."
          :: EvLog ("Cleaning up " +:+ path_string updater_exe +:+ " and "
                    +:+ path_string up_dest +:+ "/")
          :: (if fs_exists (fs w) up_dest then [EvRemoveAll up_dest] else [])
          ++ (if fs_exists (fs w) updater_exe then [EvRemove updater_exe] else []) ∧
        fs w' = cleaned (fs w) updater_exe up_dest ∧
        fs w' !! up_dest = None ∧
        fs w' !! updater_exe = None.
Proof.
  intros this_path up_dest updater_exe Hrole Hrem Hfile.
  assert (¬ up_dest `prefix_of` updater_exe) as Hp
    by (apply not_prefix_cat1; discriminate).
  rewrite (doAutoUpdate_main_role _ _ _ Hrole).
  fold this_path. fold up_dest. fold updater_exe.
  erewrite bind_Ret; cycle 1.
  { rewrite clean_remains_spec by assumption. simpl.
    destruct Hrem as [-> | ->]; rewrite ?orb_true_r; reflexivity. }
  unfold read_version. mred.
  match goal with |- context [read_token ?f ?p] => destruct (read_token f p) end;
    simpl; (eexists; split; [reflexivity|]);
    (split; [apply new_events_trace; simpl; rewrite <- ?app_assoc; reflexivity|]);
    (split; [reflexivity|]); simpl; unfold cleaned.
  all: split; [|apply lookup_delete_eq].
  all: rewrite lookup_delete_ne
         by (intros H; apply path_cat_inj in H as [_ H]; discriminate H).
  all: destruct (fs_exists (fs w) up_dest) eqn:E;
         [now apply lookup_remove_all_below | now apply fs_exists_false].
Qed.

Lemma clean_remains_first_witness :
  let w := new_updater (<[ex_dir // "update" // "tiggit.exe" := File "tiggit 1.5.0"]>
                          (<[ex_dir // "update" := Dir]>
                          (<[ex_dir // "update.exe" := File "tiggit 1.5.0"]> ex_fs))) in
  ∃ w', doAutoUpdate ex_env ex_exe w = Ret false w' ∧
        new_events w (doAutoUpdate ex_env ex_exe w) =
          [EvLog "this_exe=C:/tiggit/tiggit.exe";
           EvMsg "Cleaning up...";
           EvLog "Cleaning up C:/tiggit/update.exe and C:/tiggit/update/";
           EvRemoveAll (ex_dir // "update");
           EvRemove (ex_dir // "update.exe")] ∧
        fs w' = cleaned (fs w) (ex_dir // "update.exe") (ex_dir // "update") ∧
        fs w' !! (ex_dir // "update") = None ∧
        fs w' !! (ex_dir // "update.exe") = None.
Proof.
  apply (clean_remains_first ex_env ex_exe).
  - repeat split; vm_compute; discriminate.
  - left. reflexivity.
  - vm_compute. discriminate.
Defined.

(** ** The copy step of the updater role *)

Lemma elem_of_dir_entries (f : filesystem) (d p : path) :
  p ∈ dir_entries f d ↔ is_Some (f !! p) ∧ is_entry_of d p.
Proof.
  unfold dir_entries. rewrite list_elem_of_filter, list_elem_of_fmap. split.
  - intros (He & [q n] & -> & Hin). apply elem_of_map_to_list in Hin.
    split; [eauto | exact He].
  - intros ([n Hn] & He). split; [exact He|].
    exists (p, n). split; [reflexivity | now apply elem_of_map_to_list].
Qed.

Lemma entry_of_cat (d : path) s : is_entry_of d (d // s).
Proof. unfold is_entry_of. now rewrite leaf_cat. Qed.

Lemma entry_of_two_dirs (d1 d2 p : path) :
  is_entry_of d1 p → is_entry_of d2 p → d1 = d2.
Proof.
  unfold is_entry_of. intros H1 H2. rewrite H1 in H2 at 1.
  now apply path_cat_inj in H2.
Qed.


Lemma filter_copy_log_events f from to :
  List.filter is_copy (copy_log_events f from to) = [EvCopy from to].
Proof. unfold copy_log_events. now destruct (fs_exists f to). Qed.




Lemma copy_update_same_dir this_exe this_path new_exe w :
  copy_update this_exe this_path new_exe this_path w = copyLog this_exe new_exe w.
Proof. unfold copy_update. now rewrite bool_decide_eq_true_2. Qed.

Lemma copy_update_other_dir this_exe this_path new_exe new_path w :
  new_path ≠ this_path →
  copy_update this_exe this_path new_exe new_path w =
  copy_entries new_path (dir_entries (fs w) this_path) w.
Proof. intros H. unfold copy_update. now rewrite bool_decide_eq_false_2. Qed.

Lemma dir_entries_Forall (f : filesystem) (d : path) :
  Forall (is_entry_of d) (dir_entries f d).
Proof. apply Forall_forall. intros p Hp. now apply elem_of_dir_entries in Hp. Qed.

(** The directory loop returns as soon as no destination is a directory. *)
Lemma copy_entries_returns (new_path this_path : path) (l : list path) :
  new_path ≠ this_path →
  Forall (is_entry_of this_path) l →
  ∀ w, (∀ p, p ∈ l → fs w !! (new_path // leaf p) ≠ Some Dir) →
       ∃ w', copy_entries new_path l w = Ret tt w'.
Proof.
  intros Hne Hl. induction Hl as [|p l Hp Hl IH]; intros w Hdest.
  - now exists w.
  - simpl. unfold mbind, M_bind, gets. simpl.
    destruct (is_regular_file (fs w) p) eqn:Hreg; simpl.
    + unfold is_regular_file in Hreg.
      destruct (fs w !! p) as [[c|]|] eqn:Hpc; try discriminate.
      rewrite (copyLog_ok _ _ _ c Hpc).
      * apply IH. intros p' Hin. simpl.
        destruct (decide (new_path // leaf p = new_path // leaf p')) as [<-|Hd].
        -- rewrite lookup_insert_eq. discriminate.
        -- rewrite lookup_insert_ne by exact Hd. apply Hdest. now right.
      * intros Heq. apply Hne. symmetry.
        eapply entry_of_two_dirs; [exact Hp|]. rewrite Heq. apply entry_of_cat.
      * apply Hdest. left.
    + apply IH. intros p' Hin. apply Hdest. now right.
Qed.

(** The copy step returns when, for equal directories, the running
    executable is a regular file and [new_exe] is another path that is not
    a directory, and, for different directories, no entry of the source
    directory has a directory of its name in the destination directory. *)
Lemma copy_update_returns this_exe this_path new_exe new_path w :
  (new_path = this_path →
     is_regular_file (fs w) this_exe = true ∧ this_exe ≠ new_exe ∧
     fs w !! new_exe ≠ Some Dir) →
  (new_path ≠ this_path →
     ∀ p, p ∈ dir_entries (fs w) this_path →
          fs w !! (new_path // leaf p) ≠ Some Dir) →
  ∃ w', copy_update this_exe this_path new_exe new_path w = Ret tt w'.
Proof.
  intros Hsame Hother. destruct (decide (new_path = this_path)) as [->|Hne].
  - destruct (Hsame eq_refl) as (Hreg & Hne & Hd).
    unfold is_regular_file in Hreg.
    destruct (fs w !! this_exe) as [[c|]|] eqn:Hc; try discriminate.
    rewrite copy_update_same_dir, (copyLog_ok _ _ _ c Hc Hne Hd). eauto.
  - rewrite copy_update_other_dir by exact Hne.
    apply (copy_entries_returns new_path this_path);
      auto using dir_entries_Forall.
Qed.




(** ** The main-application role *)

Lemma doAutoUpdate_main env this_exe w :
  main_role env this_exe w → no_remains this_exe w →
  doAutoUpdate env this_exe w =
  check_and_update env (install_dir this_exe) (up_dest_of (install_dir this_exe))
    (updater_exe_of (install_dir this_exe)) (entered this_exe w).
Proof.
  intros Hrole [Hd He]. rewrite (doAutoUpdate_main_role _ _ _ Hrole).
  erewrite bind_Ret; cycle 1.
  { rewrite clean_remains_spec.
    - cbn [fs record with_base]. unfold fs_exists. rewrite Hd, He. reflexivity.
    - cbn [fs record with_base]. rewrite He. discriminate.
    - apply not_prefix_cat1. discriminate. }
  unfold read_version. mred. f_equal.
  unfold entered, local_version.
  destruct (read_token (fs w) (install_dir this_exe // "version"));
    apply world_eq; reflexivity.
Qed.

(** [checkVersion] answers what [check_verdict] says; a negative answer
    means that the loop was left without Cancel, [offline] was not set, and
    the manifest decoded to another version. *)
Lemma checkVersion_verdict env job url ti ver w b :
  check_verdict job ver (offline w) = Some b →
  ∃ st c ti',
    check_leave (fj_ticks job) = Some (st, c) ∧
    checkVersion env job url ti ver w
    = Ret (b, ti') (after (check_trace env job url w) c w) ∧
    (b = false → c = false ∧ offline w = false ∧
                 fj_decode job = DecOk ti' ∧ ver ≠ ti_version ti').
Proof.
  unfold check_verdict. rewrite checkVersion_spec.
  destruct (check_leave (fj_ticks job)) as [[st c]|]; [|discriminate].
  intros [= Hb]. simpl.
  destruct (negb (isSuccess st) || (c || offline w))%bool eqn:E; simpl in Hb.
  - subst b. exists st, c, ti. repeat split; discriminate.
  - apply orb_false_elim in E as [_ E]. apply orb_false_elim in E as [-> Hoff].
    destruct (fj_decode job) as [ti'| |]; subst b.
    + exists st, false, ti'. split; [reflexivity|]. split; [reflexivity|].
      intros Hb. apply bool_decide_eq_false in Hb. auto.
    + exists st, false, ti. repeat split; discriminate.
    + exists st, false, ti. repeat split; discriminate.
Qed.

Lemma check_events_quiet ticks :
  List.filter is_fetch (check_events ticks) = [] ∧
  List.filter is_write (check_events ticks) = [] ∧
  List.filter is_exec (check_events ticks) = [].
Proof.
  induction ticks as [|t rest (IH1 & IH2 & IH3)]; [easy|].
  simpl. unfold progress_event.
  destruct (bool_decide (tk_total t ≠ 0)), (tk_ui t); simpl;
    destruct (isFinished (tk_status t)); simpl; auto.
Qed.

Lemma update_events_quiet ticks :
  List.filter is_fetch (update_events ticks) = [] ∧
  List.filter is_write (update_events ticks) = [] ∧
  List.filter is_exec (update_events ticks) = [].
Proof.
  induction ticks as [|t rest (IH1 & IH2 & IH3)]; [easy|].
  simpl. unfold progress_event.
  destruct (bool_decide (tk_total t ≠ 0)), (tk_ui t); simpl;
    destruct (isFinished (tk_status t)); simpl; auto.
Qed.

(** C9: a manifest whose version token equals the local version makes
    [checkVersion] return true (up to date) as soon as its loop is left.
    In [doAutoUpdate], main-application role with nothing to clean, the
    run then returns false having fetched the manifest and nothing else:
    no archive is fetched, nothing is unpacked, copied or removed, nothing
    is launched, and the files are the ones the run started with (the
    staging directory among them). *)
Theorem up_to_date_no_transfer :
  (∀ env job url ti ver w st c ti',
     check_leave (fj_ticks job) = Some (st, c) →
     fj_decode job = DecOk ti' →
     ti_version ti' = ver →
     ∃ ti'' w', checkVersion env job url ti ver w = Ret (true, ti'') w' ∧
                fs w' = fs w) ∧
  (∀ env this_exe w st c ti',
     main_role env this_exe w →
     no_remains this_exe w →
     check_leave (fj_ticks (app_check env)) = Some (st, c) →
     fj_decode (app_check env) = DecOk ti' →
     ti_version ti' = local_version (install_dir this_exe) w →
     let o := doAutoUpdate env this_exe w in
     o = Ret false (out_world o) ∧
     fs (out_world o) = fs w ∧
     List.filter is_fetch (new_events w o)
     = [EvFetch (latest_url (install_dir this_exe) (fs w))
                (tmp_get env (install_dir this_exe) "ver.tmp")] ∧
     List.filter is_write (new_events w o) = [] ∧
     List.filter is_exec (new_events w o) = []).
Proof.
  split.
  - intros env job url ti ver w st c ti' Hl Hd Hv.
    rewrite checkVersion_spec, Hl, Hd. simpl.
    rewrite bool_decide_eq_true_2 by now symmetry.
    destruct (negb (isSuccess st) || (c || offline w))%bool;
      eexists _, _; split; reflexivity.
  - intros env this_exe w st c ti' Hrole Hrem Hl Hd Hv o. subst o.
    rewrite (doAutoUpdate_main _ _ _ Hrole Hrem).
    unfold check_and_update. mred.
    rewrite checkVersion_spec, Hl, Hd. simpl.
    rewrite bool_decide_eq_true_2 by now symmetry.
    destruct (check_events_quiet (fj_ticks (app_check env))) as (Q1 & Q2 & Q3).
    destruct (negb (isSuccess st) || (c || offline w))%bool; simpl;
      (split; [reflexivity|]); (split; [reflexivity|]);
      unfold new_events; simpl; rewrite <- ?app_assoc, drop_app_length;
      unfold check_trace; simpl;
      rewrite ?List.filter_app, ?Q1, ?Q2, ?Q3; simpl;
      unfold latest_url; repeat split; reflexivity.
Qed.

Lemma up_to_date_no_transfer_witness :
  let env := with_app_check (ex_fetch "1.4.0" "http://host/app-1.4.0.zip") ex_env in
  let w := new_updater ex_fs in
  let o := doAutoUpdate env ex_exe w in
  o = Ret false (out_world o) ∧
  fs (out_world o) = fs w ∧
  List.filter is_fetch (new_events w o)
  = [EvFetch "http://tiggit.net/client/latest.tig" (ex_dir // "tmp" // "ver.tmp")] ∧
  List.filter is_write (new_events w o) = [] ∧
  List.filter is_exec (new_events w o) = [].
Proof.
  apply (proj2 up_to_date_no_transfer
           (with_app_check (ex_fetch "1.4.0" "http://host/app-1.4.0.zip") ex_env)
           ex_exe (new_updater ex_fs) Done false
           {| ti_version := "1.4.0"; ti_url := "http://host/app-1.4.0.zip" |}).
  - repeat split; vm_compute; discriminate.
  - split; reflexivity.
  - reflexivity.
  - reflexivity.
  - reflexivity.
Defined.

(** ** From the version check to the staged application *)

Lemma update_leave_finished ticks st :
  update_leave ticks = Some st → isFinished st = true.
Proof.
  induction ticks as [|t rest IH]; simpl; [discriminate|].
  destruct (isFinished (tk_status t)) eqn:E; [|exact IH].
  now intros [= <-].
Qed.

Lemma unzip_leave_finished polls st :
  unzip_leave polls = Some st → isFinished st = true.
Proof.
  induction polls as [|s rest IH]; simpl; [discriminate|].
  destruct (isFinished s) eqn:E; [|exact IH].
  now intros [= <-].
Qed.

Lemma check_verdict_false job ver off :
  check_verdict job ver off = Some false →
  ∃ ti', check_leave (fj_ticks job) = Some (Done, false) ∧ off = false ∧
         fj_decode job = DecOk ti' ∧ ver ≠ ti_version ti'.
Proof.
  unfold check_verdict.
  destruct (check_leave (fj_ticks job)) as [[st c]|]; [|discriminate].
  intros [= H]. apply orb_false_elim in H as [H Hdec].
  apply orb_false_elim in H as [Hst H]. apply orb_false_elim in H as [-> ->].
  destruct st; try discriminate.
  destruct (fj_decode job) as [ti'| |]; try discriminate.
  exists ti'. repeat split. now apply bool_decide_eq_false in Hdec.
Qed.

Lemma update_verdict_inv job b :
  update_verdict job = Some b →
  ∃ st, update_leave (us_ticks job) = Some st ∧
        if isNonSuccess st then b = false
        else st = Done ∧
             ∃ st', unzip_leave (us_zip_polls job) = Some st' ∧
                    b = negb (isNonSuccess st') ∧ (b = true → st' = Done).
Proof.
  unfold update_verdict.
  destruct (update_leave (us_ticks job)) as [st|] eqn:Hl; [|discriminate].
  exists st. split; [reflexivity|].
  pose proof (update_leave_finished _ _ Hl) as Hfin.
  destruct (isNonSuccess st) eqn:Hn; [congruence|].
  split; [destruct st; try discriminate; reflexivity|].
  destruct (unzip_leave (us_zip_polls job)) as [st'|] eqn:Hu; [|discriminate].
  pose proof (unzip_leave_finished _ _ Hu) as Hfin'.
  exists st'. repeat split; [congruence|].
  injection H as <-. destruct st'; try discriminate; reflexivity.
Qed.

Lemma checkVersion_available env job url ti ver w ti' :
  check_leave (fj_ticks job) = Some (Done, false) →
  offline w = false →
  fj_decode job = DecOk ti' →
  ver ≠ ti_version ti' →
  checkVersion env job url ti ver w
  = Ret (false, ti') (after (check_trace env job url w) false w).
Proof.
  intros Hl Hoff Hd Hv. rewrite checkVersion_spec, Hl, Hoff, Hd. simpl.
  now rewrite bool_decide_eq_false_2.
Qed.

Lemma doUpdate_staged env job url up_dest vermsg w :
  update_leave (us_ticks job) = Some Done →
  unzip_leave (us_zip_polls job) = Some Done →
  doUpdate env job url up_dest vermsg w
  = Ret true (staged env job url up_dest vermsg w).
Proof. intros Hl Hu. now rewrite doUpdate_spec, Hl, Hu. Qed.

(** Once the application manifest announces another version and its
    archive has been unpacked, the run continues with the library channel. *)
Lemma doAutoUpdate_staged env this_exe w ti' :
  main_role env this_exe w →
  no_remains this_exe w →
  check_leave (fj_ticks (app_check env)) = Some (Done, false) →
  offline w = false →
  fj_decode (app_check env) = DecOk ti' →
  local_version (install_dir this_exe) w ≠ ti_version ti' →
  update_leave (us_ticks (app_update env)) = Some Done →
  unzip_leave (us_zip_polls (app_update env)) = Some Done →
  doAutoUpdate env this_exe w =
  update_dlls_and_launch env (install_dir this_exe)
    (up_dest_of (install_dir this_exe)) (updater_exe_of (install_dir this_exe))
    ti' (vermsg_of (local_version (install_dir this_exe) w) ti')
    (app_staged env this_exe w ti').
Proof.
  intros Hrole Hrem Hl Hoff Hd Hv Hul Huz.
  rewrite (doAutoUpdate_main _ _ _ Hrole Hrem).
  unfold check_and_update. mred.
  erewrite checkVersion_available by eassumption. simpl.
  erewrite doUpdate_staged by eassumption. simpl.
  f_equal. unfold app_staged, app_staged_events, staged, check_trace, latest_url.
  apply world_eq; simpl; rewrite <- ?app_assoc; reflexivity.
Qed.

(** ** The library channel and the launch *)

Lemma check_events_no_copy ticks : List.filter is_copy (check_events ticks) = [].
Proof.
  induction ticks as [|t rest IH]; [easy|].
  simpl. unfold progress_event.
  destruct (bool_decide (tk_total t ≠ 0)), (tk_ui t); simpl;
    destruct (isFinished (tk_status t)); simpl; auto.
Qed.

Lemma update_events_no_copy ticks : List.filter is_copy (update_events ticks) = [].
Proof.
  induction ticks as [|t rest IH]; [easy|].
  simpl. unfold progress_event.
  destruct (bool_decide (tk_total t ≠ 0)), (tk_ui t); simpl;
    destruct (isFinished (tk_status t)); simpl; auto.
Qed.

Lemma filter_exec_copy_log_events f from to :
  List.filter is_exec (copy_log_events f from to) = [].
Proof. unfold copy_log_events. now destruct (fs_exists f to). Qed.

Lemma check_events_no_fetch ticks : List.filter is_fetch (check_events ticks) = [].
Proof. apply check_events_quiet. Qed.

Lemma check_events_no_write ticks : List.filter is_write (check_events ticks) = [].
Proof. apply check_events_quiet. Qed.

Lemma check_events_no_exec ticks : List.filter is_exec (check_events ticks) = [].
Proof. apply check_events_quiet. Qed.

Lemma update_events_no_fetch ticks : List.filter is_fetch (update_events ticks) = [].
Proof. apply update_events_quiet. Qed.

Lemma update_events_no_write ticks : List.filter is_write (update_events ticks) = [].
Proof. apply update_events_quiet. Qed.

Lemma update_events_no_exec ticks : List.filter is_exec (update_events ticks) = [].
Proof. apply update_events_quiet. Qed.

#[local] Hint Rewrite @List.filter_app
  check_events_no_copy update_events_no_copy
  check_events_no_fetch check_events_no_write check_events_no_exec
  update_events_no_fetch update_events_no_write update_events_no_exec
  filter_copy_log_events filter_exec_copy_log_events : events.

Lemma launch_update_new_dlls env this_path up_dest updater_exe w :
  launch_update env this_path up_dest updater_exe true w
  = Ret (negb (bool_decide (wxExecute env (up_dest // "tiggit.exe") = -1)))
        (after [EvLog ("Running " +:+ path_string (up_dest // "tiggit.exe"));
                EvExec (up_dest // "tiggit.exe")] false w).
Proof.
  unfold launch_update, execute. mred.
  destruct (bool_decide (wxExecute env (up_dest // "tiggit.exe") = -1));
    simpl; f_equal; (apply world_eq; fields).
Qed.

Lemma staged_paths_distinct (this_path : path) :
  up_dest_of this_path // "tiggit.exe" ≠ updater_exe_of this_path ∧
  up_dest_of this_path // "version" ≠ updater_exe_of this_path ∧
  up_dest_of this_path // "version" ≠ this_path // "version" ∧
  this_path // "version" ≠ updater_exe_of this_path ∧
  ¬ up_dest_of this_path `prefix_of` updater_exe_of this_path ∧
  ¬ up_dest_of this_path `prefix_of` this_path // "version" ∧
  ¬ up_dest_of this_path `prefix_of` this_path // "dll_version".
Proof.
  unfold up_dest_of, updater_exe_of.
  assert (∀ s, this_path // "update" // s ≠ this_path // s) as Hlen.
  { intros s H. apply (f_equal length) in H. unfold path_cat in H.
    rewrite !length_app in H. simpl in H. lia. }
  repeat split.
  - intros H. apply path_cat_inj in H as [_ H]. discriminate H.
  - intros H. apply path_cat_inj in H as [_ H]. discriminate H.
  - apply Hlen.
  - intros H. apply path_cat_inj in H as [_ H]. discriminate H.
  - apply not_prefix_cat1. discriminate.
  - apply not_prefix_cat1. discriminate.
  - apply not_prefix_cat1. discriminate.
Qed.


(** The library channel changed: its archive is fetched and unpacked into
    the staging directory, and the staged executable is launched; nothing
    is copied and nothing outside the staging directory changes. *)
Lemma dll_changed_run env this_path up_dest updater_exe ti vermsg w ok :
  check_verdict (dll_check env) (local_dll_version this_path (fs w)) (offline w)
  = Some false →
  update_verdict (dll_update env) = Some ok →
  let o := update_dlls_and_launch env this_path up_dest updater_exe ti vermsg w in
  o = Ret (ok && negb (bool_decide (wxExecute env (up_dest // "tiggit.exe") = -1)))
          (out_world o) ∧
  (∀ q, ¬ up_dest `prefix_of` q → fs (out_world o) !! q = fs w !! q) ∧
  ∃ evs, trace (out_world o) = (trace w ++ evs)%list ∧
         List.filter is_copy evs = [] ∧
         List.filter is_exec evs
         = if ok then [EvExec (up_dest // "tiggit.exe")] else [].
Proof.
  intros Hc Hu o. subst o.
  apply check_verdict_false in Hc as (ti2 & Hl & Hoff & Hd & Hv).
  apply update_verdict_inv in Hu as (st & Hul & Hu).
  unfold update_dlls_and_launch. mred. fold (local_dll_version this_path (fs w)).
  erewrite checkVersion_available by eassumption. simpl.
  rewrite doUpdate_spec, Hul.
  destruct (isNonSuccess st) eqn:Hn.
  - subst ok. simpl. split; [reflexivity|]. split; [reflexivity|].
    eexists. split; [rewrite <- ?app_assoc; reflexivity|].
    unfold check_trace. split; quiet; reflexivity.
  - destruct Hu as (-> & st' & Huz & -> & Hst'). rewrite Huz.
    destruct (isNonSuccess st') eqn:Hn'; simpl.
    + split; [reflexivity|].
      split; [intros q Hq; now apply lookup_unpack_into|].
      eexists. split; [rewrite <- ?app_assoc; reflexivity|].
      unfold check_trace. split; quiet; reflexivity.
    + rewrite launch_update_new_dlls. simpl.
      split; [reflexivity|].
      split; [intros q Hq; now apply lookup_unpack_into|].
      eexists. split; [rewrite <- ?app_assoc; reflexivity|].
      unfold check_trace. split; quiet; reflexivity.
Qed.


Lemma read_token_unpack_into (d : path) (es : list (path * node)) (f : filesystem) (q : path) :
  ¬ d `prefix_of` q → read_token (unpack_into d es f) q = read_token f q.
Proof. intros H. unfold read_token. now rewrite lookup_unpack_into. Qed.

Lemma app_staged_events_quiet env this_exe w ti :
  List.filter is_copy (app_staged_events env this_exe w ti) = [] ∧
  List.filter is_exec (app_staged_events env this_exe w ti) = [].
Proof. unfold app_staged_events. split; quiet; reflexivity. Qed.

Lemma update_verdict_true job :
  update_verdict job = Some true →
  update_leave (us_ticks job) = Some Done ∧
  unzip_leave (us_zip_polls job) = Some Done.
Proof.
  intros H. apply update_verdict_inv in H as (st & Hl & H).
  destruct (isNonSuccess st); [discriminate|].
  destruct H as (-> & st' & Hu & _ & Hst'). rewrite Hst' in Hu by reflexivity.
  now split.
Qed.

(** ** Choosing what to run *)



(** ** Failures *)

(** C4, as stated, fails: when the check of the library channel ends in a
    transfer error, [checkVersion] returns true and [doAutoUpdate] goes on
    to launch the updater executable and returns true. *)
Lemma dll_check_failure_launches :
  let env := with_dll_check ex_fetch_error ex_env in
  let o := doAutoUpdate env ex_exe (new_updater ex_fs) in
  check_leave (fj_ticks (dll_check env)) = Some (Error, false) ∧
  check_verdict (dll_check env) "" false = Some true ∧
  o = Ret true (out_world o) ∧
  List.filter is_exec (new_events (new_updater ex_fs) o)
  = [EvExec (ex_dir // "update.exe")].
Proof. vm_compute. repeat split. Qed.

(** C4, amended: [checkVersion] returns true when its loop is left with a
    transfer that did not succeed, through Cancel, or when the manifest
    does not decode (decoder returns false or throws); [doUpdate] returns
    false when the download or the unpacking ends in non-success.  In the
    main-application role [doAutoUpdate] returns false, normally, when the
    check of the application channel answers true, when the application
    archive fails, and when the library channel changed and its archive
    fails.  (A check of the library channel that fails open counts as
    "libraries unchanged": the update goes on.) *)
Theorem fail_open :
  (∀ env job url ti ver w st c,
     check_leave (fj_ticks job) = Some (st, c) →
     isSuccess st = false ∨ c = true ∨
       fj_decode job = DecFail ∨ fj_decode job = DecThrow →
     ∃ w', checkVersion env job url ti ver w = Ret (true, ti) w') ∧
  (∀ env job url up_dest vermsg w st,
     update_leave (us_ticks job) = Some st →
     isNonSuccess st = true ∨
       (∃ st', unzip_leave (us_zip_polls job) = Some st' ∧ isNonSuccess st' = true) →
     ∃ w', doUpdate env job url up_dest vermsg w = Ret false w') ∧
  (∀ env this_exe w,
     main_role env this_exe w →
     no_remains this_exe w →
     let app := check_verdict (app_check env)
                  (local_version (install_dir this_exe) w) (offline w) in
     let dll := check_verdict (dll_check env)
                  (local_dll_version (install_dir this_exe) (fs w)) false in
     app = Some true ∨
     (app = Some false ∧ update_verdict (app_update env) = Some false) ∨
     (app = Some false ∧ update_verdict (app_update env) = Some true ∧
      dll = Some false ∧ update_verdict (dll_update env) = Some false) →
     ∃ w', doAutoUpdate env this_exe w = Ret false w').
Proof.
  split; [|split].
  - intros env job url ti ver w st c Hl Hfail.
    rewrite checkVersion_spec, Hl. simpl.
    destruct (negb (isSuccess st) || (c || offline w))%bool eqn:E; [eauto|].
    apply orb_false_elim in E as [Hst E]. apply orb_false_elim in E as [Hc _].
    destruct Hfail as [H|[H|[H|H]]].
    + rewrite H in Hst. discriminate.
    + congruence.
    + rewrite H. eauto.
    + rewrite H. eauto.
  - intros env job url up_dest vermsg w st Hl Hfail.
    rewrite doUpdate_spec, Hl.
    destruct (isNonSuccess st) eqn:Hn; [eauto|].
    destruct Hfail as [H|(st' & Hu & Hn')]; [discriminate|].
    rewrite Hu, Hn'. eauto.
  - intros env this_exe w Hrole Hrem app dll Hcase. subst app dll.
    destruct Hcase as [Happ | [[Happ Hupd] | (Happ & Hupd & Hdll & Hupd2)]].
    + rewrite (doAutoUpdate_main _ _ _ Hrole Hrem).
      unfold check_and_update. mred.
      destruct (checkVersion_verdict env (app_check env)
                  (latest_url (install_dir this_exe) (fs w))
                  {| ti_version := ""; ti_url := "" |}
                  (local_version (install_dir this_exe) w)
                  (record (EvLog ("Fetching " +:+
                     latest_url (install_dir this_exe) (fs w)))
                     (entered this_exe w)) true Happ)
        as (st & c & ti' & _ & Hrun & _).
      unfold latest_url in Hrun. rewrite Hrun. simpl. eauto.
    + apply check_verdict_false in Happ as (ti' & Hl & Hoff & Hd & Hv).
      apply update_verdict_inv in Hupd as (st & Hul & Hupd).
      rewrite (doAutoUpdate_main _ _ _ Hrole Hrem).
      unfold check_and_update. mred.
      erewrite checkVersion_available by eassumption. simpl.
      rewrite doUpdate_spec, Hul.
      destruct (isNonSuccess st); [simpl; eauto|].
      destruct Hupd as (_ & st' & Hu & Hb & _). rewrite Hu.
      destruct (isNonSuccess st'); [simpl; eauto | discriminate].
    + pose proof Happ as Happ'.
      apply check_verdict_false in Happ as (ti' & Hl & Hoff & Hd & Hv).
      apply update_verdict_true in Hupd as [Hul Huz].
      rewrite (doAutoUpdate_staged _ _ _ ti') by assumption.
      destruct (staged_paths_distinct (install_dir this_exe))
        as (_ & _ & _ & _ & _ & _ & P3).
      destruct (dll_changed_run env (install_dir this_exe)
                  (up_dest_of (install_dir this_exe))
                  (updater_exe_of (install_dir this_exe)) ti'
                  (vermsg_of (local_version (install_dir this_exe) w) ti')
                  (app_staged env this_exe w ti') false) as (Hret & _).
      * simpl offline. rewrite Hoff. unfold local_dll_version. simpl fs.
        rewrite read_token_unpack_into by exact P3. exact Hdll.
      * exact Hupd2.
      * rewrite Hret. simpl. eauto.
Qed.

(** The user cancels the check of the application channel. *)
Lemma fail_open_witness :
  ∃ w', doAutoUpdate (with_app_check ex_fetch_canceled ex_env) ex_exe
          (new_updater ex_fs) = Ret false w'.
Proof.
  apply (proj2 (proj2 fail_open) (with_app_check ex_fetch_canceled ex_env) ex_exe).
  - repeat split; vm_compute; discriminate.
  - split; reflexivity.
  - left. reflexivity.
Defined.

(** ** Launching *)

Lemma no_exec_ret {A} (a : A) : no_exec (mret a).
Proof. intros w. exists []. simpl. now rewrite app_nil_r. Qed.

Lemma no_exec_bind {A B} (m : M A) (f : A → M B) :
  no_exec m → (∀ a, no_exec (f a)) → no_exec (m ≫= f).
Proof.
  intros Hm Hf w. destruct (Hm w) as (evs & Htr & Hq).
  unfold mbind, M_bind. destruct (m w) as [a w1|w1|w1]; simpl in *; eauto.
  destruct (Hf a w1) as (evs' & Htr' & Hq').
  exists (evs ++ evs')%list. split.
  - now rewrite Htr', Htr, app_assoc.
  - now rewrite List.filter_app, Hq, Hq'.
Qed.

Lemma no_exec_emit e : is_exec e = false → no_exec (emit e).
Proof. intros He w. exists [e]. simpl. now rewrite He. Qed.

Lemma no_exec_gets {A} (f : World → A) : no_exec (gets f).
Proof. intros w. exists []. simpl. now rewrite app_nil_r. Qed.


Lemma no_exec_if {A} (b : bool) (m1 m2 : M A) :
  no_exec m1 → no_exec m2 → no_exec (if b then m1 else m2).
Proof. now destruct b. Qed.

Lemma no_exec_remove p : no_exec (remove p).
Proof.
  intros w. unfold remove. destruct (fs_remove (fs w) p); simpl.
  - now exists [EvRemove p].
  - exists []. now rewrite app_nil_r.
Qed.


Lemma no_exec_copy_file from to : no_exec (copy_file from to).
Proof.
  intros w. unfold copy_file. destruct (fs_copy_file (fs w) from to); simpl.
  - now exists [EvCopy from to].
  - exists []. now rewrite app_nil_r.
Qed.

Lemma no_exec_copyLog from to : no_exec (copyLog from to).
Proof.
  unfold copyLog. apply no_exec_bind; [now apply no_exec_emit | intros _].
  apply no_exec_bind; [apply no_exec_gets | intros b].
  apply no_exec_bind; [|intros _; apply no_exec_copy_file].
  apply no_exec_if; [apply no_exec_remove | apply no_exec_ret].
Qed.

Lemma no_exec_checkVersion env job url ti ver :
  no_exec (checkVersion env job url ti ver).
Proof.
  intros w. exists (check_trace env job url w). split.
  - rewrite checkVersion_spec.
    destruct (check_leave (fj_ticks job)) as [[st c]|]; [|reflexivity].
    simpl. destruct (negb (isSuccess st) || (c || offline w))%bool; [reflexivity|].
    now destruct (fj_decode job).
  - unfold check_trace. quiet. reflexivity.
Qed.

Lemma no_exec_doUpdate env job url up_dest vermsg :
  no_exec (doUpdate env job url up_dest vermsg).
Proof.
  intros w. rewrite doUpdate_spec.
  destruct (update_leave (us_ticks job)) as [st|].
  - destruct (isNonSuccess st).
    + eexists. split; [reflexivity|]. quiet. reflexivity.
    + destruct (unzip_leave (us_zip_polls job));
        (eexists; split; [reflexivity|]); quiet; reflexivity.
  - eexists. split; [reflexivity|]. quiet. reflexivity.
Qed.



Lemma not_exec_in_quiet cmd evs :
  List.filter is_exec evs = [] → EvExec cmd ∉ evs.
Proof.
  intros Hq Hin.
  assert (EvExec cmd ∈ List.filter is_exec evs) as Hin'
    by (apply list_elem_of_In, List.filter_In; split;
        [now apply list_elem_of_In | reflexivity]).
  rewrite Hq in Hin'. inversion Hin'.
Qed.

Lemma launch_checked_no_exec env (m : M bool) : no_exec m → launch_checked env m.
Proof.
  intros Hm w. destruct (Hm w) as (evs & Htr & Hq).
  exists evs. split; [exact Htr|].
  intros cmd Hin _. now apply (not_exec_in_quiet cmd evs) in Hq.
Qed.

Lemma launch_checked_bind env {A} (m : M A) (f : A → M bool) :
  no_exec m → (∀ a, launch_checked env (f a)) → launch_checked env (m ≫= f).
Proof.
  intros Hm Hf w. destruct (Hm w) as (evs & Htr & Hq).
  unfold mbind, M_bind. destruct (m w) as [a w1|w1|w1]; simpl in Htr.
  - destruct (Hf a w1) as (evs' & Htr' & Hchk).
    exists (evs ++ evs')%list. split; [now rewrite Htr', Htr, app_assoc|].
    intros cmd Hin Hfail. apply elem_of_app in Hin as [Hin|Hin].
    + now apply (not_exec_in_quiet cmd evs) in Hq.
    + now apply (Hchk cmd).
  - exists evs. split; [exact Htr|].
    intros cmd Hin _. now apply (not_exec_in_quiet cmd evs) in Hq.
  - exists evs. split; [exact Htr|].
    intros cmd Hin _. now apply (not_exec_in_quiet cmd evs) in Hq.
Qed.

Lemma launch_checked_if env (b : bool) (m1 m2 : M bool) :
  launch_checked env m1 → launch_checked env m2 →
  launch_checked env (if b then m1 else m2).
Proof. now destruct b. Qed.

(** The launch itself: the result of [wxExecute] is compared with -1. *)
Lemma launch_checked_execute env (run : path) :
  launch_checked env
    (log ("Running " +:+ path_string run) ;;
     res ← execute env run;
     if bool_decide (res = -1) then mret false else mret true).
Proof.
  intros w. unfold execute. mred.
  exists [EvLog ("Running " +:+ path_string run); EvExec run]. split.
  - destruct (bool_decide (wxExecute env run = -1)); simpl;
      now rewrite <- app_assoc.
  - intros cmd Hin Hfail.
    apply elem_of_cons in Hin as [Hin|Hin]; [discriminate|].
    apply list_elem_of_singleton in Hin. injection Hin as ->.
    rewrite bool_decide_eq_true_2 by exact Hfail. eauto.
Qed.

Lemma launch_checked_launch_update env this_path up_dest updater_exe newDlls :
  launch_checked env (launch_update env this_path up_dest updater_exe newDlls).
Proof.
  unfold launch_update. apply launch_checked_bind.
  - apply no_exec_if; [|apply no_exec_ret].
    apply no_exec_bind; [apply no_exec_copyLog | intros _].
    apply no_exec_bind; [apply no_exec_copyLog | intros _].
    apply no_exec_ret.
  - intros run. apply launch_checked_execute.
Qed.

Lemma launch_checked_update_dlls env this_path up_dest updater_exe ti vermsg :
  launch_checked env
    (update_dlls_and_launch env this_path up_dest updater_exe ti vermsg).
Proof.
  unfold update_dlls_and_launch.
  apply launch_checked_bind; [apply no_exec_gets | intros dll_version].
  apply launch_checked_bind; [apply no_exec_checkVersion | intros r].
  apply launch_checked_if; [|apply launch_checked_launch_update].
  apply launch_checked_bind; [now apply no_exec_emit | intros _].
  apply launch_checked_bind; [apply no_exec_doUpdate | intros ok].
  apply launch_checked_if; [|apply launch_checked_launch_update].
  apply launch_checked_no_exec, no_exec_ret.
Qed.







(** * Further properties of the updater *)

(** ** The override file *)

(** X1: an override file beside the executable makes [doAutoUpdate] return
    false with the whole state untouched, whatever the operating system
    and whatever the role of the executable. *)
Theorem override_disables_update env this_exe w :
  fs_exists (fs w) (parent_path this_exe // "override") = true →
  doAutoUpdate env this_exe w = Ret false w.
Proof.
  intros Hov. unfold doAutoUpdate.
  case_bool_decide; [reflexivity|].
  mred. now rewrite Hov.
Qed.

(** Running as [update.exe] on Windows, with an update staged and an
    override file present. *)
Lemma override_disables_update_witness :
  let w := new_updater (<[ex_dir // "override" := File ""]>
                          (<[ex_dir // "update.exe" := File "tiggit 1.5.0"]> ex_fs)) in
  doAutoUpdate ex_env (ex_dir // "update.exe") w = Ret false w.
Proof.
  apply (override_disables_update ex_env (ex_dir // "update.exe")).
  reflexivity.
Defined.

(** ** The offline flag is never cleared *)

Lemma keeps_offline_same {A} (m : M A) :
  (∀ w, offline (out_world (m w)) = offline w) → keeps_offline m.
Proof. intros H w Hw. now rewrite H. Qed.

Lemma keeps_offline_ret {A} (a : A) : keeps_offline (mret a).
Proof. now apply keeps_offline_same. Qed.

Lemma keeps_offline_bind {A B} (m : M A) (f : A → M B) :
  keeps_offline m → (∀ a, keeps_offline (f a)) → keeps_offline (m ≫= f).
Proof.
  intros Hm Hf w Hw. specialize (Hm w Hw).
  unfold mbind, M_bind. destruct (m w) as [a w1|w1|w1]; simpl in *; auto.
  now apply Hf.
Qed.

Lemma keeps_offline_if {A} (b : bool) (m1 m2 : M A) :
  keeps_offline m1 → keeps_offline m2 → keeps_offline (if b then m1 else m2).
Proof. now destruct b. Qed.

Lemma keeps_offline_emit e : keeps_offline (emit e).
Proof. now apply keeps_offline_same. Qed.

Lemma keeps_offline_gets {A} (f : World → A) : keeps_offline (gets f).
Proof. now apply keeps_offline_same. Qed.

Lemma keeps_offline_remove p : keeps_offline (remove p).
Proof.
  apply keeps_offline_same. intros w. unfold remove.
  now destruct (fs_remove (fs w) p).
Qed.

Lemma keeps_offline_remove_all p : keeps_offline (remove_all p).
Proof. now apply keeps_offline_same. Qed.

Lemma keeps_offline_copy_file from to : keeps_offline (copy_file from to).
Proof.
  apply keeps_offline_same. intros w. unfold copy_file.
  now destruct (fs_copy_file (fs w) from to).
Qed.

Lemma keeps_offline_copyLog from to : keeps_offline (copyLog from to).
Proof.
  unfold copyLog. apply keeps_offline_bind; [apply keeps_offline_emit | intros _].
  apply keeps_offline_bind; [apply keeps_offline_gets | intros b].
  apply keeps_offline_bind; [|intros _; apply keeps_offline_copy_file].
  apply keeps_offline_if; [apply keeps_offline_remove | apply keeps_offline_ret].
Qed.

Lemma keeps_offline_copy_entries new_path l : keeps_offline (copy_entries new_path l).
Proof.
  induction l as [|p l IH]; simpl; [apply keeps_offline_ret|].
  apply keeps_offline_bind; [apply keeps_offline_gets | intros reg].
  apply keeps_offline_bind; [|intros _; exact IH].
  apply keeps_offline_if; [apply keeps_offline_copyLog | apply keeps_offline_ret].
Qed.

Lemma keeps_offline_checkVersion env job url ti ver :
  keeps_offline (checkVersion env job url ti ver).
Proof.
  intros w Hw. rewrite checkVersion_spec.
  destruct (check_leave (fj_ticks job)) as [[st c]|]; simpl; [|exact Hw].
  rewrite Hw. repeat (rewrite ?orb_true_r; simpl).
  rewrite Hw. apply orb_true_r.
Qed.

Lemma doUpdate_offline env job url up_dest vermsg w :
  offline (out_world (doUpdate env job url up_dest vermsg w)) = offline w.
Proof.
  rewrite doUpdate_spec.
  destruct (update_leave (us_ticks job)) as [st|]; [|reflexivity].
  destruct (isNonSuccess st); [reflexivity|].
  now destruct (unzip_leave (us_zip_polls job)).
Qed.

Lemma keeps_offline_launch_update env this_path up_dest updater_exe newDlls :
  keeps_offline (launch_update env this_path up_dest updater_exe newDlls).
Proof.
  unfold launch_update. apply keeps_offline_bind.
  - apply keeps_offline_if; [|apply keeps_offline_ret].
    apply keeps_offline_bind; [apply keeps_offline_copyLog | intros _].
    apply keeps_offline_bind; [apply keeps_offline_copyLog | intros _].
    apply keeps_offline_ret.
  - intros run. apply keeps_offline_bind; [apply keeps_offline_emit | intros _].
    apply keeps_offline_bind.
    + unfold execute.
      apply keeps_offline_bind; [apply keeps_offline_emit | intros _].
      apply keeps_offline_ret.
    + intros res. apply keeps_offline_if; apply keeps_offline_ret.
Qed.

Lemma keeps_offline_update_dlls env this_path up_dest updater_exe ti vermsg :
  keeps_offline (update_dlls_and_launch env this_path up_dest updater_exe ti vermsg).
Proof.
  unfold update_dlls_and_launch.
  apply keeps_offline_bind; [apply keeps_offline_gets | intros dll_version].
  apply keeps_offline_bind; [apply keeps_offline_checkVersion | intros r].
  apply keeps_offline_if; [|apply keeps_offline_launch_update].
  apply keeps_offline_bind; [apply keeps_offline_emit | intros _].
  apply keeps_offline_bind;
    [apply keeps_offline_same; intros w; apply doUpdate_offline | intros ok].
  apply keeps_offline_if; [apply keeps_offline_ret | apply keeps_offline_launch_update].
Qed.

Lemma keeps_offline_check_and_update env this_path up_dest updater_exe :
  keeps_offline (check_and_update env this_path up_dest updater_exe).
Proof.
  unfold check_and_update.
  apply keeps_offline_bind; [apply keeps_offline_gets | intros test].
  apply keeps_offline_bind; [apply keeps_offline_emit | intros _].
  apply keeps_offline_bind; [apply keeps_offline_gets | intros ver].
  apply keeps_offline_bind; [apply keeps_offline_checkVersion | intros r].
  apply keeps_offline_if.
  - apply keeps_offline_bind; [apply keeps_offline_emit | intros _].
    apply keeps_offline_ret.
  - apply keeps_offline_bind; [apply keeps_offline_emit | intros _].
    apply keeps_offline_bind;
      [apply keeps_offline_same; intros w; apply doUpdate_offline | intros ok].
    apply keeps_offline_if; [apply keeps_offline_ret | apply keeps_offline_update_dlls].
Qed.

Lemma keeps_offline_clean_remains updater_exe up_dest :
  keeps_offline (clean_remains updater_exe up_dest).
Proof.
  unfold clean_remains.
  apply keeps_offline_bind; [apply keeps_offline_gets | intros a].
  apply keeps_offline_bind; [apply keeps_offline_gets | intros b].
  apply keeps_offline_if; [|apply keeps_offline_ret].
  apply keeps_offline_bind; [apply keeps_offline_emit | intros _].
  apply keeps_offline_bind; [apply keeps_offline_emit | intros _].
  apply keeps_offline_bind; [apply keeps_offline_gets | intros a'].
  apply keeps_offline_bind;
    [apply keeps_offline_if; [apply keeps_offline_remove_all | apply keeps_offline_ret]
    | intros _].
  apply keeps_offline_bind; [apply keeps_offline_gets | intros b'].
  apply keeps_offline_bind;
    [apply keeps_offline_if; [apply keeps_offline_remove | apply keeps_offline_ret]
    | intros _].
  apply keeps_offline_ret.
Qed.

Lemma keeps_offline_run_updater env this_exe this_path :
  keeps_offline (run_updater env this_exe this_path).
Proof.
  unfold run_updater.
  apply keeps_offline_bind; [apply keeps_offline_emit | intros _].
  apply keeps_offline_bind; [apply keeps_offline_emit | intros _].
  apply keeps_offline_bind.
  - unfold copy_update. apply keeps_offline_if; [apply keeps_offline_copyLog|].
    apply keeps_offline_bind; [apply keeps_offline_gets | intros l].
    apply keeps_offline_copy_entries.
  - intros _. apply keeps_offline_bind; [apply keeps_offline_emit | intros _].
    apply keeps_offline_bind.
    + unfold execute.
      apply keeps_offline_bind; [apply keeps_offline_emit | intros _].
      apply keeps_offline_ret.
    + intros _. apply keeps_offline_ret.
Qed.

(** X2: nothing in the updater clears [offline].  Once the flag is set it
    is still set in the state every call of [checkVersion], [doUpdate] and
    [doAutoUpdate] ends in, whether the call returns, throws or never
    leaves a poll loop; [doUpdate] does not even set it. *)
Theorem offline_never_cleared :
  (∀ env job url ti ver w,
     offline w = true →
     offline (out_world (checkVersion env job url ti ver w)) = true) ∧
  (∀ env job url up_dest vermsg w,
     offline (out_world (doUpdate env job url up_dest vermsg w)) = offline w) ∧
  (∀ env this_exe w,
     offline w = true →
     offline (out_world (doAutoUpdate env this_exe w)) = true).
Proof.
  split; [|split].
  - intros env job url ti ver. apply keeps_offline_checkVersion.
  - intros. apply doUpdate_offline.
  - intros env this_exe. unfold doAutoUpdate.
    apply keeps_offline_if; [apply keeps_offline_ret|].
    apply keeps_offline_bind; [apply keeps_offline_gets | intros override].
    apply keeps_offline_if; [apply keeps_offline_ret|].
    apply keeps_offline_bind; [now apply keeps_offline_same | intros _].
    apply keeps_offline_bind; [apply keeps_offline_emit | intros _].
    apply keeps_offline_if; [apply keeps_offline_run_updater|].
    apply keeps_offline_bind; [apply keeps_offline_clean_remains | intros didClean].
    apply keeps_offline_bind.
    + apply keeps_offline_same. intros w. unfold read_version, modify. simpl.
      now destruct (read_token (fs w) (install_dir this_exe // "version")).
    + intros _. apply keeps_offline_if;
        [apply keeps_offline_ret | apply keeps_offline_check_and_update].
Qed.

(** A whole update run entered with the flag set. *)
Lemma offline_never_cleared_witness :
  offline (out_world (doAutoUpdate ex_env ex_exe
                        (with_offline true (new_updater ex_fs)))) = true.
Proof.
  apply (proj2 (proj2 offline_never_cleared) ex_env ex_exe). reflexivity.
Defined.

(** ** Cancel *)

Lemma check_cancel_at pre t post :
  Forall (λ x, tk_ui x = true ∧ tk_status x = Busy) pre →
  tk_ui t = false →
  check_leave (pre ++ t :: post) = Some (tk_status t, true) ∧
  check_events (pre ++ t :: post)
  = (map progress_event pre ++ [progress_event t; EvAbort])%list.
Proof.
  intros Hpre Ht. induction Hpre as [|x pre [Hui Hst] _ [IH1 IH2]]; simpl.
  - now rewrite Ht.
  - rewrite Hui, Hst. simpl. now rewrite IH1, IH2.
Qed.

(** X3: [checkVersion] leaves its loop at the first Cancel, whether or not
    the job has finished and whatever it would have reported later: it
    asks the job to abort, sets [offline] and returns true, after exactly
    one progress call per iteration up to and including that one. *)
Theorem checkVersion_cancel_leaves_at_once env job url ti ver w pre t post :
  fj_ticks job = (pre ++ t :: post)%list →
  Forall (λ x, tk_ui x = true ∧ tk_status x = Busy) pre →
  tk_ui t = false →
  let o := checkVersion env job url ti ver w in
  o = Ret (true, ti) (out_world o) ∧
  offline (out_world o) = true ∧
  new_events w o
  = ([EvMsg check_msg; EvFetch url (tmp_get env (gett_base w) "ver.tmp")]
     ++ map progress_event pre ++ [progress_event t; EvAbort])%list.
Proof.
  intros Hticks Hpre Ht o. subst o.
  destruct (check_cancel_at pre t post Hpre Ht) as [Hl He].
  rewrite new_events_checkVersion. unfold check_trace.
  rewrite checkVersion_spec, Hticks, Hl, He. simpl.
  rewrite orb_true_r. repeat split.
Qed.

(** The job hangs (it stays busy for ever); the user cancels at the third
    poll. *)
Lemma checkVersion_cancel_leaves_at_once_witness :
  let job := {| fj_ticks := [ex_tick 0 0 true Busy; ex_tick 0 0 true Busy;
                             ex_tick 0 0 false Busy; ex_tick 0 0 true Busy];
                fj_decode := DecFail |} in
  let ti := {| ti_version := ""; ti_url := "" |} in
  let w := new_updater ex_fs in
  let o := checkVersion ex_env job "http://tiggit.net/client/latest.tig" ti "1.4.0" w in
  o = Ret (true, ti) (out_world o) ∧
  offline (out_world o) = true ∧
  new_events w o
  = [EvMsg check_msg;
     EvFetch "http://tiggit.net/client/latest.tig" ["tmp"; "ver.tmp"];
     EvPulse; EvPulse; EvPulse; EvAbort].
Proof.
  exact (checkVersion_cancel_leaves_at_once ex_env
           {| fj_ticks := [ex_tick 0 0 true Busy; ex_tick 0 0 true Busy;
                           ex_tick 0 0 false Busy; ex_tick 0 0 true Busy];
              fj_decode := DecFail |}
           "http://tiggit.net/client/latest.tig"
           {| ti_version := ""; ti_url := "" |} "1.4.0" (new_updater ex_fs)
           [ex_tick 0 0 true Busy; ex_tick 0 0 true Busy]
           (ex_tick 0 0 false Busy) [ex_tick 0 0 true Busy]
           eq_refl ltac:(repeat constructor) eq_refl).
Defined.







(** ** What the two job drivers leave alone *)


(** ** copyLog, exactly *)

Lemma fs_remove_blocked (f : filesystem) (p : path) :
  fs_remove f p = if dir_with_entries f p then None else Some (delete p f).
Proof.
  unfold fs_remove, dir_with_entries.
  destruct (f !! p) as [[c|]|]; reflexivity.
Qed.


Lemma copyLog_throws from to w :
  can_copy (fs w) from to = false →
  ∃ w', copyLog from to w = Throw w' ∧
        fs w' = (if dir_with_entries (fs w) to then fs w else delete to (fs w)) ∧
        ∃ evs, trace w' = (trace w ++ evs)%list ∧
               List.filter is_copy evs = [] ∧ List.filter is_exec evs = [].
Proof.
  intros Hcan. unfold copyLog. mred.
  destruct (fs_exists (fs w) to) eqn:Ex; simpl.
  - unfold remove. simpl. rewrite fs_remove_blocked.
    destruct (dir_with_entries (fs w) to) eqn:Hd.
    + eexists. split; [reflexivity|]. split; [reflexivity|].
      eexists. split; [reflexivity|]. split; reflexivity.
    + unfold copy_file, fs_copy_file. simpl.
      assert (match delete to (fs w) !! from with
              | Some (File c) => false | _ => true end = true) as Hsrc.
      { unfold can_copy in Hcan. rewrite Hd, andb_true_r in Hcan.
        destruct (decide (from = to)) as [->|Hne].
        - now rewrite lookup_delete_eq.
        - rewrite lookup_delete_ne by congruence.
          rewrite bool_decide_eq_false_2, andb_true_r in Hcan by exact Hne.
          unfold is_regular_file in Hcan.
          now destruct (fs w !! from) as [[?|]|]. }
      destruct (delete to (fs w) !! from) as [[c|]|]; try discriminate;
        (eexists; split; [reflexivity|]; split; [reflexivity|];
         eexists; split; [simpl; rewrite <- app_assoc; reflexivity|];
         split; reflexivity).
  - unfold copy_file, fs_copy_file. simpl.
    assert (dir_with_entries (fs w) to = false) as Hd.
    { unfold dir_with_entries. apply fs_exists_false in Ex. now rewrite Ex. }
    rewrite Hd.
    assert (delete to (fs w) = fs w) as ->
      by (apply delete_id; now apply fs_exists_false).
    assert (match fs w !! from with
            | Some (File c) => false | _ => true end = true) as Hsrc.
    { unfold can_copy in Hcan. rewrite Hd, andb_true_r in Hcan.
      destruct (decide (from = to)) as [->|Hne].
      - apply fs_exists_false in Ex. now rewrite Ex.
      - rewrite bool_decide_eq_false_2, andb_true_r in Hcan by exact Hne.
        unfold is_regular_file in Hcan.
        now destruct (fs w !! from) as [[?|]|]. }
    destruct (fs w !! from) as [[c|]|]; try discriminate;
      (eexists; split; [reflexivity|]; split; [reflexivity|];
       eexists; split; [reflexivity|]; split; reflexivity).
Qed.



(** ** A staged archive that lacks a file *)

Lemma launch_update_source_missing env this_path w :
  let up_dest := up_dest_of this_path in
  let updater_exe := updater_exe_of this_path in
  is_regular_file (fs w) (up_dest // "tiggit.exe") = false →
  fs w !! updater_exe = None →
  ∃ w', launch_update env this_path up_dest updater_exe false w = Throw w' ∧
        fs w' = fs w ∧
        ∃ evs, trace w' = (trace w ++ evs)%list ∧
               List.filter is_copy evs = [] ∧ List.filter is_exec evs = [].
Proof.
  intros up_dest updater_exe Hsrc Hupd.
  assert (can_copy (fs w) (up_dest // "tiggit.exe") updater_exe = false) as Hcan
    by (unfold can_copy; now rewrite Hsrc).
  destruct (copyLog_throws _ _ _ Hcan) as (w' & Hrun & Hfs & Hev).
  exists w'. split; [|split; [|exact Hev]].
  - unfold launch_update. simpl negb. cbv iota.
    apply bind_Throw. apply bind_Throw. exact Hrun.
  - rewrite Hfs. unfold dir_with_entries. rewrite Hupd.
    apply delete_id. exact Hupd.
Qed.

Lemma launch_update_marker_missing env this_path w exe :
  let up_dest := up_dest_of this_path in
  let updater_exe := updater_exe_of this_path in
  fs w !! (up_dest // "tiggit.exe") = Some (File exe) →
  is_regular_file (fs w) (up_dest // "version") = false →
  fs w !! updater_exe = None →
  fs w !! (this_path // "version") ≠ Some Dir →
  ∃ w', launch_update env this_path up_dest updater_exe false w = Throw w' ∧
        fs w' = delete (this_path // "version") (<[updater_exe := File exe]> (fs w)) ∧
        ∃ evs, trace w' = (trace w ++ evs)%list ∧
               List.filter is_copy evs = [EvCopy (up_dest // "tiggit.exe") updater_exe] ∧
               List.filter is_exec evs = [].
Proof.
  intros up_dest updater_exe Hexe Hver Hupd Hmark.
  destruct (staged_paths_distinct this_path) as (D1 & D2 & D3 & D4 & _).
  fold up_dest in D1, D2, D3. fold updater_exe in D1, D2, D4.
  pose (w1 := with_fs (<[updater_exe := File exe]> (fs w))
                (after (copy_log_events (fs w) (up_dest // "tiggit.exe") updater_exe)
                   false w)).
  assert (copyLog (up_dest // "tiggit.exe") updater_exe w = Ret tt w1) as Hfirst.
  { apply copyLog_ok; [exact Hexe | exact D1 | rewrite Hupd; discriminate]. }
  assert (dir_with_entries (fs w1) (this_path // "version") = false) as Hd.
  { unfold dir_with_entries. simpl. rewrite lookup_insert_ne by congruence.
    destruct (fs w !! (this_path // "version")) as [[?|]|]; congruence. }
  assert (can_copy (fs w1) (up_dest // "version") (this_path // "version") = false)
    as Hcan.
  { unfold can_copy, is_regular_file. simpl.
    rewrite lookup_insert_ne by congruence.
    unfold is_regular_file in Hver. now rewrite Hver. }
  destruct (copyLog_throws _ _ _ Hcan) as (w' & Hrun & Hfs & evs & Htr & Hc & He).
  exists w'. split; [|split].
  - unfold launch_update. simpl negb. cbv iota.
    apply bind_Throw. unfold mbind at 1. unfold M_bind at 1. rewrite Hfirst.
    apply bind_Throw. exact Hrun.
  - rewrite Hfs, Hd. reflexivity.
  - exists (copy_log_events (fs w) (up_dest // "tiggit.exe") updater_exe ++ evs)%list.
    split.
    { rewrite Htr.
      change (trace w1)
        with (trace w ++ copy_log_events (fs w) (up_dest // "tiggit.exe") updater_exe)%list.
      now rewrite app_assoc. }
    rewrite !List.filter_app, Hc, He, filter_copy_log_events,
      filter_exec_copy_log_events. split; reflexivity.
Qed.

(** X7: the copies before the launch are not guarded.  In the
    main-application role, when the application archive was unpacked and
    the library channel did not change, a staged archive without a regular
    [tiggit.exe] makes [doAutoUpdate] throw before anything is copied or
    launched; one that has [tiggit.exe] but no regular [version] makes it
    throw after the first copy, leaving [update.exe] in the install
    directory and the installed version marker removed.  Nothing is
    launched in either case. *)
Theorem missing_staged_file_throws env this_exe w :
  let this_path := install_dir this_exe in
  let up_dest := up_dest_of this_path in
  let updater_exe := updater_exe_of this_path in
  let staged_fs := unpack_into up_dest (us_entries (app_update env)) (fs w) in
  let o := doAutoUpdate env this_exe w in
  main_role env this_exe w →
  no_remains this_exe w →
  check_verdict (app_check env) (local_version this_path w) (offline w) = Some false →
  update_verdict (app_update env) = Some true →
  check_verdict (dll_check env) (local_dll_version this_path (fs w)) false = Some true →
  (is_regular_file staged_fs (up_dest // "tiggit.exe") = false →
   o = Throw (out_world o) ∧
   fs (out_world o) = staged_fs ∧
   List.filter is_copy (new_events w o) = [] ∧
   List.filter is_exec (new_events w o) = []) ∧
  (∀ exe,
     staged_fs !! (up_dest // "tiggit.exe") = Some (File exe) →
     is_regular_file staged_fs (up_dest // "version") = false →
     fs w !! (this_path // "version") ≠ Some Dir →
     o = Throw (out_world o) ∧
     fs (out_world o)
     = delete (this_path // "version") (<[updater_exe := File exe]> staged_fs) ∧
     List.filter is_copy (new_events w o) = [EvCopy (up_dest // "tiggit.exe") updater_exe] ∧
     List.filter is_exec (new_events w o) = []).
Proof.
  intros this_path up_dest updater_exe staged_fs o Hrole Hrem Happ Hstage Hdll.
  subst up_dest updater_exe staged_fs.
  apply check_verdict_false in Happ as (ti' & Hl & Hoff & Hd & Hv).
  apply update_verdict_true in Hstage as [Hul Huz].
  assert (o = update_dlls_and_launch env this_path (up_dest_of this_path)
                (updater_exe_of this_path) ti'
                (vermsg_of (local_version this_path w) ti')
                (app_staged env this_exe w ti')) as Ho
    by (now apply doAutoUpdate_staged).
  destruct (staged_paths_distinct this_path) as (_ & _ & _ & _ & P1 & P2 & P3).
  destruct (app_staged_events_quiet env this_exe w ti') as [Qc Qe].
  clearbody o. subst o.
  set (w3 := app_staged env this_exe w ti').
  assert (check_verdict (dll_check env) (local_dll_version this_path (fs w3))
            (offline w3) = Some true) as Hdll3.
  { unfold w3, local_dll_version. simpl.
    rewrite read_token_unpack_into by exact P3. rewrite Hoff. exact Hdll. }
  destruct (checkVersion_verdict env (dll_check env)
              "http://tiggit.net/client/dlls.tig" ti' _ w3 true Hdll3)
    as (st & c & ti2 & _ & Hcheck & _).
  set (w4 := after (check_trace env (dll_check env)
                      "http://tiggit.net/client/dlls.tig" w3) c w3) in Hcheck.
  assert (update_dlls_and_launch env this_path (up_dest_of this_path)
            (updater_exe_of this_path) ti'
            (vermsg_of (local_version this_path w) ti') w3
          = launch_update env this_path (up_dest_of this_path)
              (updater_exe_of this_path) false w4) as Hrun.
  { unfold update_dlls_and_launch.
    unfold mbind at 1. unfold M_bind at 1. unfold gets at 1. cbv beta.
    fold (local_dll_version this_path (fs w3)).
    unfold mbind at 1. unfold M_bind at 1. rewrite Hcheck. reflexivity. }
  rewrite Hrun.
  assert (trace w4 = (trace w ++ app_staged_events env this_exe w ti'
                      ++ check_trace env (dll_check env)
                           "http://tiggit.net/client/dlls.tig" w3)%list) as Htr4
    by (unfold w4, w3, app_staged; cbn [trace after]; now rewrite <- app_assoc).
  assert (List.filter is_copy (check_trace env (dll_check env)
            "http://tiggit.net/client/dlls.tig" w3) = [] ∧
          List.filter is_exec (check_trace env (dll_check env)
            "http://tiggit.net/client/dlls.tig" w3) = []) as [Kc Ke]
    by (unfold check_trace; split; quiet; reflexivity).
  split.
  - intros Hsrc.
    destruct (launch_update_source_missing env this_path w4)
      as (w' & Hthrow & Hfs & evs & Htr & Hc & He).
    + exact Hsrc.
    + simpl. rewrite lookup_unpack_into by exact P1. apply Hrem.
    + rewrite Hthrow. simpl. split; [reflexivity|]. split; [exact Hfs|].
      rewrite (new_events_trace w (Throw w')
                 (app_staged_events env this_exe w ti'
                  ++ check_trace env (dll_check env)
                       "http://tiggit.net/client/dlls.tig" w3 ++ evs))
        by (cbn [out_world]; rewrite Htr, Htr4; now rewrite <- !app_assoc).
      rewrite !List.filter_app, Qc, Qe, Kc, Ke, Hc, He. split; reflexivity.
  - intros exe Hexe Hver Hmark.
    destruct (launch_update_marker_missing env this_path w4 exe)
      as (w' & Hthrow & Hfs & evs & Htr & Hc & He).
    + exact Hexe.
    + exact Hver.
    + simpl. rewrite lookup_unpack_into by exact P1. apply Hrem.
    + simpl. now rewrite lookup_unpack_into by exact P2.
    + rewrite Hthrow. simpl. split; [reflexivity|]. split; [exact Hfs|].
      rewrite (new_events_trace w (Throw w')
                 (app_staged_events env this_exe w ti'
                  ++ check_trace env (dll_check env)
                       "http://tiggit.net/client/dlls.tig" w3 ++ evs))
        by (cbn [out_world]; rewrite Htr, Htr4; now rewrite <- !app_assoc).
      rewrite !List.filter_app, Qc, Qe, Kc, Ke, Hc, He. split; reflexivity.
Qed.

(** The published archive holds only a read-me. *)
Lemma missing_staged_file_throws_witness :
  let env := with_app_update (ex_archive ex_readme_entries) ex_env in
  let w := new_updater ex_fs in
  let o := doAutoUpdate env ex_exe w in
  o = Throw (out_world o) ∧
  fs (out_world o) = unpack_into (ex_dir // "update") ex_readme_entries ex_fs ∧
  List.filter is_copy (new_events w o) = [] ∧
  List.filter is_exec (new_events w o) = [].
Proof.
  cbv zeta.
  apply (proj1 (missing_staged_file_throws
                  (with_app_update (ex_archive ex_readme_entries) ex_env)
                  ex_exe (new_updater ex_fs)
                  ltac:(repeat split; vm_compute; discriminate)
                  ltac:(split; reflexivity)
                  ltac:(reflexivity) ltac:(reflexivity) ltac:(reflexivity))).
  reflexivity.
Defined.

(** ** One update, from staging to cleaning *)







(** ** The downloads of a run *)

Lemma no_fetch_ret {A} (a : A) : no_fetch (mret a).
Proof. intros w. exists []. simpl. now rewrite app_nil_r. Qed.

Lemma no_fetch_bind {A B} (m : M A) (f : A → M B) :
  no_fetch m → (∀ a, no_fetch (f a)) → no_fetch (m ≫= f).
Proof.
  intros Hm Hf w. destruct (Hm w) as (evs & Htr & Hq).
  unfold mbind, M_bind. destruct (m w) as [a w1|w1|w1]; simpl in *; eauto.
  destruct (Hf a w1) as (evs' & Htr' & Hq').
  exists (evs ++ evs')%list. split.
  - now rewrite Htr', Htr, app_assoc.
  - now rewrite List.filter_app, Hq, Hq'.
Qed.

Lemma no_fetch_emit e : is_fetch e = false → no_fetch (emit e).
Proof. intros He w. exists [e]. simpl. now rewrite He. Qed.

Lemma no_fetch_gets {A} (f : World → A) : no_fetch (gets f).
Proof. intros w. exists []. simpl. now rewrite app_nil_r. Qed.

Lemma no_fetch_modify (f : World → World) :
  (∀ w, trace (f w) = trace w) → no_fetch (modify f).
Proof. intros Hf w. exists []. simpl. now rewrite app_nil_r, Hf. Qed.

Lemma no_fetch_if {A} (b : bool) (m1 m2 : M A) :
  no_fetch m1 → no_fetch m2 → no_fetch (if b then m1 else m2).
Proof. now destruct b. Qed.

Lemma no_fetch_remove p : no_fetch (remove p).
Proof.
  intros w. unfold remove. destruct (fs_remove (fs w) p); simpl.
  - now exists [EvRemove p].
  - exists []. now rewrite app_nil_r.
Qed.

Lemma no_fetch_remove_all p : no_fetch (remove_all p).
Proof. intros w. now exists [EvRemoveAll p]. Qed.

Lemma no_fetch_copy_file from to : no_fetch (copy_file from to).
Proof.
  intros w. unfold copy_file. destruct (fs_copy_file (fs w) from to); simpl.
  - now exists [EvCopy from to].
  - exists []. now rewrite app_nil_r.
Qed.

Lemma no_fetch_copyLog from to : no_fetch (copyLog from to).
Proof.
  unfold copyLog. apply no_fetch_bind; [now apply no_fetch_emit | intros _].
  apply no_fetch_bind; [apply no_fetch_gets | intros b].
  apply no_fetch_bind; [|intros _; apply no_fetch_copy_file].
  apply no_fetch_if; [apply no_fetch_remove | apply no_fetch_ret].
Qed.

Lemma no_fetch_clean_remains updater_exe up_dest :
  no_fetch (clean_remains updater_exe up_dest).
Proof.
  unfold clean_remains.
  apply no_fetch_bind; [apply no_fetch_gets | intros a].
  apply no_fetch_bind; [apply no_fetch_gets | intros b].
  apply no_fetch_if; [|apply no_fetch_ret].
  apply no_fetch_bind; [now apply no_fetch_emit | intros _].
  apply no_fetch_bind; [now apply no_fetch_emit | intros _].
  apply no_fetch_bind; [apply no_fetch_gets | intros a'].
  apply no_fetch_bind;
    [apply no_fetch_if; [apply no_fetch_remove_all | apply no_fetch_ret] | intros _].
  apply no_fetch_bind; [apply no_fetch_gets | intros b'].
  apply no_fetch_bind;
    [apply no_fetch_if; [apply no_fetch_remove | apply no_fetch_ret] | intros _].
  apply no_fetch_ret.
Qed.

Lemma no_fetch_read_version this_path : no_fetch (read_version this_path).
Proof.
  apply no_fetch_modify. intros w.
  now destruct (read_token (fs w) (this_path // "version")).
Qed.

Lemma no_fetch_execute env cmd : no_fetch (execute env cmd).
Proof.
  unfold execute. apply no_fetch_bind; [now apply no_fetch_emit | intros _].
  apply no_fetch_ret.
Qed.

Lemma no_fetch_launch_update env this_path up_dest updater_exe newDlls :
  no_fetch (launch_update env this_path up_dest updater_exe newDlls).
Proof.
  unfold launch_update. apply no_fetch_bind.
  - apply no_fetch_if; [|apply no_fetch_ret].
    apply no_fetch_bind; [apply no_fetch_copyLog | intros _].
    apply no_fetch_bind; [apply no_fetch_copyLog | intros _].
    apply no_fetch_ret.
  - intros run. apply no_fetch_bind; [now apply no_fetch_emit | intros _].
    apply no_fetch_bind; [apply no_fetch_execute | intros res].
    apply no_fetch_if; apply no_fetch_ret.
Qed.

Lemma no_fetch_copy_entries new_path entries :
  no_fetch (copy_entries new_path entries).
Proof.
  induction entries as [|p rest IH]; [apply no_fetch_ret|].
  simpl. apply no_fetch_bind; [apply no_fetch_gets | intros reg].
  apply no_fetch_bind; [|intros _; exact IH].
  apply no_fetch_if; [apply no_fetch_copyLog | apply no_fetch_ret].
Qed.

Lemma no_fetch_run_updater env this_exe this_path :
  no_fetch (run_updater env this_exe this_path).
Proof.
  unfold run_updater. cbv zeta.
  apply no_fetch_bind; [now apply no_fetch_emit | intros _].
  apply no_fetch_bind; [now apply no_fetch_emit | intros _].
  apply no_fetch_bind.
  - unfold copy_update. apply no_fetch_if; [apply no_fetch_copyLog|].
    apply no_fetch_bind; [apply no_fetch_gets | intros entries].
    apply no_fetch_copy_entries.
  - intros _. apply no_fetch_bind; [now apply no_fetch_emit | intros _].
    apply no_fetch_bind; [apply no_fetch_execute | intros _].
    apply no_fetch_ret.
Qed.

Lemma plans_no_fetch {A} (m : M A) w l : no_fetch m → plans m w l.
Proof.
  intros Hm. destruct (Hm w) as (evs & Htr & Hq).
  exists evs. split; [exact Htr|]. rewrite Hq. apply prefix_nil.
Qed.

Lemma plans_step {A B} (m : M A) (f : A → M B) w l :
  no_fetch m →
  (∀ a w', m w = Ret a w' → plans (f a) w' l) →
  plans (m ≫= f) w l.
Proof.
  intros Hm Hf. destruct (Hm w) as (evs & Htr & Hq).
  unfold plans, mbind, M_bind.
  destruct (m w) as [a w1|w1|w1] eqn:E; simpl in Htr.
  - destruct (Hf a w1 eq_refl) as (evs' & Htr' & Hp).
    exists (evs ++ evs')%list. split; [now rewrite Htr', Htr, app_assoc|].
    now rewrite List.filter_app, Hq.
  - exists evs. split; [exact Htr|]. rewrite Hq. apply prefix_nil.
  - exists evs. split; [exact Htr|]. rewrite Hq. apply prefix_nil.
Qed.

Lemma plans_bind {A B} (m : M A) (f : A → M B) w l1 l2 l :
  (∃ evs, trace (out_world (m w)) = (trace w ++ evs)%list ∧
          List.filter is_fetch evs = l1) →
  l = (l1 ++ l2)%list →
  (∀ a w', m w = Ret a w' → plans (f a) w' l2) →
  plans (m ≫= f) w l.
Proof.
  intros (evs & Htr & Hq) -> Hf.
  unfold plans, mbind, M_bind.
  destruct (m w) as [a w1|w1|w1] eqn:E; simpl in Htr.
  - destruct (Hf a w1 eq_refl) as (evs' & Htr' & Hp).
    exists (evs ++ evs')%list. split; [now rewrite Htr', Htr, app_assoc|].
    rewrite List.filter_app, Hq. now apply prefix_app.
  - exists evs. split; [exact Htr|]. rewrite Hq. now exists l2.
  - exists evs. split; [exact Htr|]. rewrite Hq. now exists l2.
Qed.

Lemma checkVersion_fetches env job url ti ver w :
  ∃ evs, trace (out_world (checkVersion env job url ti ver w)) = (trace w ++ evs)%list ∧
         List.filter is_fetch evs = [EvFetch url (tmp_get env (gett_base w) "ver.tmp")].
Proof.
  exists (check_trace env job url w). split.
  - rewrite checkVersion_spec.
    destruct (check_leave (fj_ticks job)) as [[st c]|]; [|reflexivity].
    simpl. destruct (negb (isSuccess st) || (c || offline w))%bool; [reflexivity|].
    now destruct (fj_decode job).
  - unfold check_trace. quiet. reflexivity.
Qed.

(** What a [checkVersion] call that returned has left, and what a negative
    answer means for the manifest. *)
Lemma checkVersion_returned env job url ti ver w r w' :
  checkVersion env job url ti ver w = Ret r w' →
  gett_base w' = gett_base w ∧ fs w' = fs w ∧
  (r.1 = false → fj_decode job = DecOk r.2).
Proof.
  rewrite checkVersion_spec.
  destruct (check_leave (fj_ticks job)) as [[st c]|]; [|discriminate].
  simpl. destruct (negb (isSuccess st) || (c || offline w))%bool.
  - intros [= <- <-]. repeat split. discriminate.
  - destruct (fj_decode job) as [ti'| |]; intros [= <- <-]; repeat split;
      discriminate.
Qed.

Lemma doUpdate_fetches env job url up_dest vermsg w :
  ∃ evs, trace (out_world (doUpdate env job url up_dest vermsg w))
         = (trace w ++ evs)%list ∧
         List.filter is_fetch evs
         = [EvFetch url (getPath env (gett_base w) "update.zip")].
Proof.
  rewrite doUpdate_spec.
  destruct (update_leave (us_ticks job)) as [st|].
  - destruct (isNonSuccess st).
    + eexists. split; [reflexivity|]. quiet. reflexivity.
    + destruct (unzip_leave (us_zip_polls job));
        (eexists; split; [reflexivity|]); quiet; reflexivity.
  - eexists. split; [reflexivity|]. quiet. reflexivity.
Qed.

Lemma doUpdate_returned env job url up_dest vermsg w ok w' :
  doUpdate env job url up_dest vermsg w = Ret ok w' →
  gett_base w' = gett_base w.
Proof.
  rewrite doUpdate_spec.
  destruct (update_leave (us_ticks job)) as [st|]; [|discriminate].
  destruct (isNonSuccess st); [now intros [= <- <-]|].
  destruct (unzip_leave (us_zip_polls job)); [|discriminate].
  now intros [= <- <-].
Qed.

Lemma plans_update_dlls env this_path up_dest updater_exe ti vermsg w :
  plans (update_dlls_and_launch env this_path up_dest updater_exe ti vermsg) w
    [EvFetch "http://tiggit.net/client/dlls.tig" (tmp_get env (gett_base w) "ver.tmp");
     EvFetch (manifest_url (dll_check env)) (getPath env (gett_base w) "update.zip")].
Proof.
  unfold update_dlls_and_launch.
  apply plans_step; [apply no_fetch_gets|]. intros dv w1 H1.
  unfold gets in H1. injection H1 as <- <-.
  eapply plans_bind; [apply checkVersion_fetches | reflexivity |].
  intros r w2 H2. apply checkVersion_returned in H2 as (Hb & _ & Hdec).
  destruct r as [b ti2]. simpl in Hdec. cbn [fst snd].
  destruct b; cbn [negb].
  - apply plans_no_fetch, no_fetch_launch_update.
  - apply plans_step; [now apply no_fetch_emit|]. intros [] w3 H3.
    assert (gett_base w3 = gett_base w) as Hb3
      by (unfold log, emit in H3; injection H3 as <-; exact Hb).
    eapply plans_bind; [apply doUpdate_fetches | |].
    + rewrite Hb3. unfold manifest_url. rewrite (Hdec eq_refl). reflexivity.
    + intros ok w4 _. apply plans_no_fetch.
      apply no_fetch_if; [apply no_fetch_ret | apply no_fetch_launch_update].
Qed.

Lemma plans_check_and_update env this_path up_dest updater_exe w :
  gett_base w = this_path →
  plans (check_and_update env this_path up_dest updater_exe) w
    (fetch_plan env this_path (fs w)).
Proof.
  intros Hbase. unfold check_and_update.
  apply plans_step; [apply no_fetch_gets|]. intros test w1 H1.
  unfold exists_, gets in H1. injection H1 as <- <-. cbv zeta.
  apply plans_step; [now apply no_fetch_emit|]. intros [] w2 H2.
  unfold log, emit in H2. injection H2 as <-.
  apply plans_step; [apply no_fetch_gets|]. intros ver w3 H3.
  unfold gets in H3. injection H3 as <- <-.
  eapply plans_bind; [apply checkVersion_fetches | |].
  { unfold fetch_plan, latest_url. cbn [gett_base record]. rewrite Hbase.
    reflexivity. }
  intros r w4 H4. apply checkVersion_returned in H4 as (Hb4 & _ & Hdec).
  cbn [gett_base record] in Hb4.
  destruct r as [b ti2]. simpl in Hdec. cbn [fst snd].
  destruct b.
  - apply plans_no_fetch.
    apply no_fetch_bind; [now apply no_fetch_emit | intros _; apply no_fetch_ret].
  - apply plans_step; [now apply no_fetch_emit|]. intros [] w5 H5.
    assert (gett_base w5 = this_path) as Hb5
      by (unfold log, emit in H5; injection H5 as <-; cbn [gett_base record];
          now rewrite Hb4).
    eapply plans_bind; [apply doUpdate_fetches | |].
    { rewrite Hb5. unfold manifest_url. rewrite (Hdec eq_refl). reflexivity. }
    intros ok w6 H6. apply doUpdate_returned in H6. rewrite Hb5 in H6.
    destruct ok; cbn [negb].
    + match goal with
      | |- plans (update_dlls_and_launch _ _ _ _ ?ti ?msg) _ _ =>
          pose proof (plans_update_dlls env this_path up_dest updater_exe ti msg w6)
            as P
      end.
      rewrite H6 in P. exact P.
    + apply plans_no_fetch, no_fetch_ret.
Qed.

(** [clean_remains] answers false only when it found nothing and did
    nothing. *)
Lemma clean_remains_false updater_exe up_dest w w' :
  clean_remains updater_exe up_dest w = Ret false w' → w' = w.
Proof.
  unfold clean_remains. mred.
  destruct (fs_exists (fs w) up_dest) eqn:Ea;
    destruct (fs_exists (fs w) updater_exe) eqn:Eb; simpl;
    unfold remove, remove_all; simpl;
    repeat match goal with
           | |- context [fs_exists ?f ?p] => destruct (fs_exists f p); simpl
           | |- context [fs_remove ?f ?p] => destruct (fs_remove f p); simpl
           end;
    try discriminate.
  now intros [= <-].
Qed.

Lemma plans_doAutoUpdate env this_exe w :
  plans (doAutoUpdate env this_exe) w
    (fetch_plan env (install_dir this_exe) (fs w)).
Proof.
  unfold doAutoUpdate.
  case_bool_decide; [apply plans_no_fetch, no_fetch_ret|].
  apply plans_step; [apply no_fetch_gets|]. intros ov w1 H1.
  unfold exists_, gets in H1. injection H1 as <- <-.
  destruct (fs_exists (fs w) (parent_path this_exe // "override"));
    [apply plans_no_fetch, no_fetch_ret|].
  cbv zeta.
  apply plans_step; [now apply no_fetch_modify|]. intros [] w2 H2.
  unfold modify in H2. injection H2 as <-.
  apply plans_step; [now apply no_fetch_emit|]. intros [] w3 H3.
  unfold log, emit in H3. injection H3 as <-.
  case_bool_decide; [apply plans_no_fetch, no_fetch_run_updater|].
  apply plans_step; [apply no_fetch_clean_remains|]. intros didClean w4 H4.
  apply plans_step; [apply no_fetch_read_version|]. intros [] w5 H5.
  destruct didClean; [apply plans_no_fetch, no_fetch_ret|].
  apply clean_remains_false in H4. subst w4.
  unfold read_version, modify in H5. injection H5 as <-.
  match goal with
  | |- plans _ ?w5 _ =>
      pose proof (plans_check_and_update env (install_dir this_exe)
                    (up_dest_of (install_dir this_exe))
                    (updater_exe_of (install_dir this_exe)) w5) as P
  end.
  destruct (read_token _ _); apply P; reflexivity.
Qed.

(** X9: the downloads of a run of [doAutoUpdate], whatever the state, the
    environment, the role and the way the run ends, are the first so many
    of: the application manifest (from the test URL exactly when
    [use_test_url] exists in the install directory) into [ver.tmp], the
    archive the application manifest announced into [update.zip], the
    library manifest into the same [ver.tmp], the archive the library
    manifest announced into the same [update.zip].  So there are at most
    four, no archive is fetched before its manifest was, and no archive is
    fetched from a URL that its manifest did not announce. *)
Theorem fetches_follow_plan env this_exe w :
  List.filter is_fetch (new_events w (doAutoUpdate env this_exe w))
  `prefix_of` fetch_plan env (install_dir this_exe) (fs w).
Proof.
  destruct (plans_doAutoUpdate env this_exe w) as (evs & Htr & Hp).
  now rewrite (new_events_trace _ _ _ Htr).
Qed.

(** ** An installation without a version marker *)

Lemma extends_trace_launch_checked env (m : M bool) :
  launch_checked env m → extends_trace m.
Proof. intros H w. destruct (H w) as (evs & Htr & _). eauto. Qed.

Lemma occurs_now {A B} e (m : M A) (f : A → M B) w :
  occurs e m w → (∀ a, extends_trace (f a)) → occurs e (m ≫= f) w.
Proof.
  intros (evs & Htr & Hin) Hf. unfold occurs, mbind, M_bind.
  destruct (m w) as [a w1|w1|w1]; simpl in Htr; eauto.
  destruct (Hf a w1) as (evs' & Htr').
  exists (evs ++ evs')%list. split; [now rewrite Htr', Htr, app_assoc|].
  apply elem_of_app. now left.
Qed.

Lemma occurs_later {A B} e (m : M A) (f : A → M B) w a w' :
  m w = Ret a w' → (∃ evs, trace w' = (trace w ++ evs)%list) →
  occurs e (f a) w' → occurs e (m ≫= f) w.
Proof.
  intros Hm (evs & Htr) (evs' & Htr' & Hin). unfold occurs, mbind, M_bind.
  rewrite Hm. exists (evs ++ evs')%list.
  split; [now rewrite Htr', Htr, app_assoc|].
  apply elem_of_app. now right.
Qed.

Lemma occurs_doUpdate env job url up_dest vermsg w :
  occurs (EvFetch url (getPath env (gett_base w) "update.zip"))
    (doUpdate env job url up_dest vermsg) w.
Proof.
  destruct (doUpdate_fetches env job url up_dest vermsg w) as (evs & Htr & Hq).
  exists evs. split; [exact Htr|].
  apply list_elem_of_In.
  apply (proj1 (List.filter_In is_fetch _ evs)).
  rewrite Hq. now left.
Qed.

(** X10: an installation whose [version] file is missing, empty or not a
    regular file is always taken to be out of date.  On a new [Updater],
    in the main-application role with nothing to clean, as soon as the
    application manifest is fetched and decodes to any version other than
    the text [unknown], the run goes on to download the archive that the
    manifest announces, whatever happens afterwards. *)
Theorem no_marker_always_updates (env : Env) (this_exe : path) (f : filesystem) ti' :
  let w := new_updater f in
  let this_path := install_dir this_exe in
  main_role env this_exe w →
  no_remains this_exe w →
  read_token f (this_path // "version") = None →
  check_leave (fj_ticks (app_check env)) = Some (Done, false) →
  fj_decode (app_check env) = DecOk ti' →
  ti_version ti' ≠ "unknown" →
  EvFetch (ti_url ti') (getPath env this_path "update.zip")
  ∈ new_events w (doAutoUpdate env this_exe w).
Proof.
  intros w this_path Hrole Hrem Hmark Hl Hd Hv.
  assert (occurs (EvFetch (ti_url ti') (getPath env this_path "update.zip"))
            (check_and_update env this_path (up_dest_of this_path)
               (updater_exe_of this_path)) (entered this_exe w)) as Hocc.
  { unfold check_and_update.
    eapply occurs_later; [reflexivity | exists []; now rewrite app_nil_r |].
    cbv zeta.
    eapply occurs_later; [reflexivity | eexists; reflexivity |].
    eapply occurs_later; [reflexivity | exists []; now rewrite app_nil_r |].
    eapply occurs_later.
    { apply checkVersion_available with (ti' := ti');
        [exact Hl | reflexivity | exact Hd |].
      cbn [version record entered]. unfold local_version.
      change (read_token (fs w) (install_dir this_exe // "version"))
        with (read_token f (this_path // "version")).
      rewrite Hmark. simpl. congruence. }
    { eexists. reflexivity. }
    cbn [fst snd].
    eapply occurs_later; [reflexivity | eexists; reflexivity |].
    apply occurs_now.
    - exact (occurs_doUpdate _ _ _ _ _ _).
    - intros ok. destruct ok; cbn [negb].
      + apply (extends_trace_launch_checked env), launch_checked_update_dlls.
      + intros w'. exists []. simpl. now rewrite app_nil_r. }
  rewrite (doAutoUpdate_main _ _ _ Hrole Hrem). fold this_path.
  destruct Hocc as (evs & Htr & Hin).
  rewrite (new_events_trace w _
             (EvLog ("this_exe=" +:+ path_string this_exe) :: evs)).
  - now right.
  - rewrite Htr. unfold entered. cbn [trace]. now rewrite <- app_assoc.
Qed.

(** A fresh installation directory that holds only the executable. *)
Lemma no_marker_always_updates_witness :
  let f : filesystem := <[ex_dir // "tiggit.exe" := File "tiggit 1.4.0"]> (<[ex_dir := Dir]> ∅) in
  EvFetch "http://host/app-1.5.0.zip" (ex_dir // "update.zip")
  ∈ new_events (new_updater f) (doAutoUpdate ex_env ex_exe (new_updater f)).
Proof.
  cbv zeta.
  apply (no_marker_always_updates ex_env ex_exe
           (<[ex_dir // "tiggit.exe" := File "tiggit 1.4.0"]> (<[ex_dir := Dir]> ∅))
           {| ti_version := "1.5.0"; ti_url := "http://host/app-1.5.0.zip" |}).
  - repeat split; vm_compute; discriminate.
  - split; reflexivity.
  - reflexivity.
  - reflexivity.
  - reflexivity.
  - discriminate.
Defined.

(** ** The helper, whatever it finds *)




(** ** Nothing changes outside the install directory *)

























(** * Properties of the configuration file *)

Lemma to_int_range z : - 2 ^ 31 ≤ Cfg.to_int z < 2 ^ 31.
Proof.
  unfold Cfg.to_int.
  pose proof (Z.mod_pos_bound (z + 2 ^ 31) (2 ^ 32) ltac:(lia)). lia.
Qed.

Lemma to_int_small z : - 2 ^ 31 ≤ z < 2 ^ 31 → Cfg.to_int z = z.
Proof.
  intros H. unfold Cfg.to_int. rewrite Z.mod_small by lia. lia.
Qed.

(** X13: what [write] stores for [lastTime].  The stored number always
    fits 32 bits, and it is the value in memory exactly when that value
    fits 32 bits.  The value a new [Config] starts with does not: it is
    stored as -1. *)
Theorem write_truncates_last_time (c : Cfg.Config) :
  - 2 ^ 31 ≤ Cfg.j_last_time (Cfg.write c) < 2 ^ 31 ∧
  (Cfg.j_last_time (Cfg.write c) = Cfg.lastTime c
   ↔ - 2 ^ 31 ≤ Cfg.lastTime c < 2 ^ 31) ∧
  Cfg.j_last_time (Cfg.write Cfg.new_config) = -1.
Proof.
  split; [apply to_int_range|]. split; [|reflexivity].
  cbn [Cfg.write Cfg.j_last_time]. split.
  - intros H. rewrite <- H. apply to_int_range.
  - apply to_int_small.
Qed.

Lemma set_lastTime_twice a b c :
  Cfg.set_lastTime a (Cfg.set_lastTime b c) = Cfg.set_lastTime a c.
Proof. now destruct c. Qed.

Lemma setLastTime_max t c :
  Cfg.lastTime (Cfg.setLastTime t c).1 = Z.max (Cfg.lastTime c) t ∧
  Cfg.set_lastTime (Z.max (Cfg.lastTime c) t) c = (Cfg.setLastTime t c).1 ∧
  (Cfg.setLastTime t c).2
  = if t >? Cfg.lastTime c
    then [(Cfg.filename c, Cfg.write (Cfg.setLastTime t c).1)] else [].
Proof.
  destruct c as [fn gd ul ut uc ft db sd ha lt].
  unfold Cfg.setLastTime. cbn [Cfg.lastTime Cfg.filename].
  destruct (Z.gtb_spec t lt); cbn -[Z.max].
  - rewrite Z.max_r by lia. repeat split.
  - rewrite Z.max_l by lia. repeat split.
Qed.

Lemma setLastTimes_snoc ts t c :
  Cfg.setLastTimes (ts ++ [t]) c
  = ((Cfg.setLastTime t (Cfg.setLastTimes ts c).1).1,
     ((Cfg.setLastTimes ts c).2
      ++ (Cfg.setLastTime t (Cfg.setLastTimes ts c).1).2)%list).
Proof.
  unfold Cfg.setLastTimes. rewrite foldl_app. cbn [foldl].
  now destruct (Cfg.setLastTime t _).
Qed.

Lemma foldl_max_ge (ts : list Z) (a : Z) : a ≤ foldl Z.max a ts.
Proof.
  revert a. induction ts as [|x ts IH]; intros a; cbn [foldl]; [lia|].
  etransitivity; [|apply IH]. lia.
Qed.

Lemma foldl_max_bounded (ts : list Z) (a : Z) :
  Forall (λ t, t ≤ a) ts → foldl Z.max a ts = a.
Proof.
  induction 1 as [|x l Hx Hl IH]; cbn [foldl]; [reflexivity|].
  now rewrite Z.max_l by lia.
Qed.

(** X14: [setLastTime] keeps a running maximum.  After any run of calls,
    [lastTime] is the largest of the value before and the values passed,
    and no other member has changed; nothing is written exactly when no
    value passed was larger than the value before; and when something was
    written, the last document written is that of the final state, in the
    file named by [filename]. *)
Theorem setLastTime_running_max (ts : list Z) (c : Cfg.Config) :
  let c' := (Cfg.setLastTimes ts c).1 in
  let ws := (Cfg.setLastTimes ts c).2 in
  Cfg.lastTime c' = foldl Z.max (Cfg.lastTime c) ts ∧
  c' = Cfg.set_lastTime (Cfg.lastTime c') c ∧
  (ws = [] ↔ Forall (λ t, t ≤ Cfg.lastTime c) ts) ∧
  (ws ≠ [] → last ws = Some (Cfg.filename c, Cfg.write c')).
Proof.
  induction ts as [|t ts IH] using rev_ind.
  - cbn. repeat split; try easy. now destruct c.
  - cbv zeta in *. rewrite setLastTimes_snoc. cbn [fst snd].
    destruct IH as (Hmax & Hsame & Hnone & Hlast).
    set (c1 := (Cfg.setLastTimes ts c).1) in *.
    set (ws1 := (Cfg.setLastTimes ts c).2) in *.
    destruct (setLastTime_max t c1) as (Hm & Hs & Hw).
    pose proof (foldl_max_ge ts (Cfg.lastTime c)) as Hmono.
    rewrite <- Hmax in Hmono.
    assert (Cfg.filename c1 = Cfg.filename c) as Hfn
      by (rewrite Hsame; now destruct c).
    split; [|split; [|split]].
    + rewrite Hm, foldl_app. cbn [foldl]. now rewrite Hmax.
    + rewrite Hm, <- Hs. generalize (Cfg.lastTime c1 `max` t). intros M.
      rewrite Hsame. apply set_lastTime_twice.
    + rewrite Hw. split.
      * intros Hnil. apply app_eq_nil in Hnil as [Hn1 Hn2].
        apply Hnone in Hn1.
        apply Forall_app. split; [exact Hn1|].
        apply Forall_cons. split; [|constructor].
        destruct (Z.gtb_spec t (Cfg.lastTime c1)); [discriminate|].
        rewrite Hmax, (foldl_max_bounded _ _ Hn1) in *. lia.
      * intros Hall. apply Forall_app in Hall as [H1 H2].
        apply Forall_cons in H2 as [H2 _].
        rewrite (proj2 Hnone H1). cbn [app].
        rewrite Hmax, (foldl_max_bounded _ _ H1).
        destruct (Z.gtb_spec t (Cfg.lastTime c)); [lia | reflexivity].
    + intros Hne. rewrite Hw in *.
      destruct (Z.gtb_spec t (Cfg.lastTime c1)).
      * rewrite last_snoc, Hfn. reflexivity.
      * rewrite app_nil_r in *. rewrite (Hlast Hne).
        do 3 f_equal. unfold Cfg.setLastTime.
        destruct (Z.gtb_spec t (Cfg.lastTime c1)); [lia | reflexivity].
Qed.

(** X15: the two flags that are set once.  After [setAskedDirs] the flag
    is set; the call writes exactly when the flag was not set before, so a
    second call writes nothing and changes nothing.  The same holds for
    [shown_demo_msg].  [setGameDir] writes on every call, also when the
    name is the one already stored. *)
Theorem flags_written_once (c : Cfg.Config) :
  (Cfg.has_asked_dirs (Cfg.setAskedDirs c).1 = true ∧
   ((Cfg.setAskedDirs c).2 = [] ↔ Cfg.has_asked_dirs c = true) ∧
   Cfg.setAskedDirs (Cfg.setAskedDirs c).1 = ((Cfg.setAskedDirs c).1, [])) ∧
  (Cfg.seen_demo_msg (Cfg.shown_demo_msg c).1 = true ∧
   ((Cfg.shown_demo_msg c).2 = [] ↔ Cfg.seen_demo_msg c = true) ∧
   Cfg.shown_demo_msg (Cfg.shown_demo_msg c).1 = ((Cfg.shown_demo_msg c).1, [])) ∧
  (∀ name, (Cfg.setGameDir name c).2
           = [(Cfg.filename c, Cfg.write (Cfg.setGameDir name c).1)]).
Proof.
  destruct c as [fn gd ul ut uc ft db sd ha lt].
  split; [|split].
  - unfold Cfg.setAskedDirs. cbn [Cfg.has_asked_dirs]. destruct ha; cbn.
    + now repeat split.
    + repeat split; easy.
  - unfold Cfg.shown_demo_msg. cbn [Cfg.seen_demo_msg]. destruct sd; cbn.
    + now repeat split.
    + repeat split; easy.
  - reflexivity.
Qed.

Lemma try_load_frame root c :
  let c' := (Cfg.try_load root c).1 in
  Cfg.filename c' = Cfg.filename c ∧ Cfg.updateList c' = Cfg.updateList c ∧
  Cfg.updateTigs c' = Cfg.updateTigs c ∧ Cfg.first_time c' = Cfg.first_time c.
Proof.
  destruct c as [fn gd ul ut uc ft db sd ha lt].
  unfold Cfg.try_load.
  destruct (Cfg.as_last_time root); [|now repeat split].
  destruct (Cfg.as_seen_demo_msg root); [|now repeat split].
  destruct (Cfg.as_has_asked_dirs root); [|now repeat split].
  destruct (Cfg.as_debug root); [|now repeat split].
  destruct (Cfg.as_gamedir root); [|now repeat split].
  cbn [Cfg.set_lastTime Cfg.set_seen_demo_msg Cfg.set_has_asked_dirs
       Cfg.set_debug Cfg.set_gamedir Cfg.gamedir].
  destruct (Cfg.as_cache_version root); cbv zeta;
    cbn [Cfg.set_lastTime Cfg.set_gamedir Cfg.set_updateCache Cfg.lastTime];
    repeat match goal with |- context [if ?b then _ else _] => destruct b end;
    now repeat split.
Qed.

Lemma try_load_threw root c :
  (Cfg.try_load root c).2
  = negb (bool_decide (is_Some (Cfg.as_last_time root)
                       ∧ is_Some (Cfg.as_seen_demo_msg root)
                       ∧ is_Some (Cfg.as_has_asked_dirs root)
                       ∧ is_Some (Cfg.as_debug root)
                       ∧ is_Some (Cfg.as_gamedir root)
                       ∧ is_Some (Cfg.as_cache_version root))).
Proof.
  unfold Cfg.try_load. case_bool_decide as H.
  - destruct H as ([t ->] & [b1 ->] & [b2 ->] & [b3 ->] & [g ->] & [v ->]).
    reflexivity.
  - destruct (Cfg.as_last_time root); [|reflexivity].
    destruct (Cfg.as_seen_demo_msg root); [|reflexivity].
    destruct (Cfg.as_has_asked_dirs root); [|reflexivity].
    destruct (Cfg.as_debug root); [|reflexivity].
    destruct (Cfg.as_gamedir root); [|reflexivity].
    destruct (Cfg.as_cache_version root); [|reflexivity].
    exfalso. apply H. repeat split; eauto.
Qed.

(** X16: [load], whatever it finds.  It names the file [config] in the
    directory given, and it ends with exactly one write, of the state it
    leaves, to that file.  It raises [updateList] exactly when it ran into
    an error, that is when the file is missing, or starts with nothing,
    [1] or [2] (the old format), or cannot be read as JSON, or has another
    [repo_version] than 3, or holds a member that does not convert; it
    never lowers the flag.  It raises [first_time] exactly when the file is
    missing, and leaves [updateTigs] alone. *)
Theorem load_flags (where_ : path) (file : option Cfg.ConfigFile) (c : Cfg.Config) :
  let c' := (Cfg.load where_ file c).1 in
  Cfg.filename c' = where_ // "config" ∧
  (Cfg.load where_ file c).2 = [(where_ // "config", Cfg.write c')] ∧
  Cfg.updateList c' = (Cfg.updateList c || Cfg.load_error file)%bool ∧
  Cfg.first_time c' = (Cfg.first_time c || bool_decide (file = None))%bool ∧
  Cfg.updateTigs c' = Cfg.updateTigs c.
Proof.
  destruct c as [fn gd ul ut uc ft db sd ha lt].
  unfold Cfg.load, Cfg.load_error.
  cbn [Cfg.set_filename Cfg.updateList Cfg.first_time Cfg.updateTigs].
  destruct file as [f|].
  - rewrite (bool_decide_eq_false_2 (Some f = None)) by discriminate.
    destruct (bool_decide (Cfg.first_word f = "") || bool_decide (Cfg.first_word f = "1")
              || bool_decide (Cfg.first_word f = "2"))%bool.
    + cbn. rewrite !orb_true_r, orb_false_r. now repeat split.
    + cbn [orb]. destruct (Cfg.readJson f) as [root|].
      * pose proof (try_load_frame root
                      (Cfg.mkConfig (where_ // "config") gd ul ut uc ft db sd ha lt))
          as (F1 & F2 & F3 & F4).
        pose proof (try_load_threw root
                      (Cfg.mkConfig (where_ // "config") gd ul ut uc ft db sd ha lt))
          as Hthrew.
        destruct (Cfg.try_load root _) as [c1 threw].
        cbn [fst snd Cfg.filename Cfg.updateList Cfg.updateTigs Cfg.first_time]
          in F1, F2, F3, F4, Hthrew.
        subst threw. destruct c1 as [fn1 gd1 ul1 ut1 uc1 ft1 db1 sd1 ha1 lt1].
        cbn [Cfg.filename Cfg.updateList Cfg.updateTigs Cfg.first_time]
          in F1, F2, F3, F4. subst fn1 ul1 ut1 ft1.
        destruct (Cfg.repo_version_differs root || _)%bool; cbn;
          rewrite ?orb_true_r, ?orb_false_r; now repeat split.
      * cbn. rewrite !orb_true_r, orb_false_r. now repeat split.
  - cbn. rewrite !orb_true_r. now repeat split.
Qed.

(** The state [load] leaves when the file is in the new format and every
    member converts. *)
Lemma load_converted (where_ : path) (f : Cfg.ConfigFile) (root : Cfg.JsonReads)
    (c : Cfg.Config) t seen asked dbg dir cache :
  Cfg.first_word f ≠ "" → Cfg.first_word f ≠ "1" → Cfg.first_word f ≠ "2" →
  Cfg.readJson f = Some root →
  Cfg.as_last_time root = Some t →
  Cfg.as_seen_demo_msg root = Some seen →
  Cfg.as_has_asked_dirs root = Some asked →
  Cfg.as_debug root = Some dbg →
  Cfg.as_gamedir root = Some dir →
  Cfg.as_cache_version root = Some cache →
  (Cfg.load where_ (Some f) c).1
  = Cfg.mkConfig (where_ // "config")
      (if bool_decide (dir = "") then "games" else dir)
      (Cfg.updateList c || Cfg.repo_version_differs root)%bool
      (Cfg.updateTigs c)
      (Cfg.updateCache c || (cache <? 1))%bool
      (Cfg.first_time c) dbg seen asked (Z.max 0 t).
Proof.
  intros H0 H1 H2 Hread Ht Hs Ha Hd Hg Hc.
  destruct c as [fn gd ul ut uc ft db sd ha lt].
  unfold Cfg.load. cbn [Cfg.first_word].
  rewrite !bool_decide_eq_false_2 by assumption. cbn [orb].
  rewrite Hread. unfold Cfg.try_load. rewrite Ht, Hs, Ha, Hd, Hg, Hc.
  cbv zeta.
  cbn [Cfg.gamedir Cfg.set_gamedir Cfg.lastTime Cfg.set_lastTime
       Cfg.set_debug Cfg.set_has_asked_dirs Cfg.set_seen_demo_msg
       Cfg.set_filename Cfg.updateList Cfg.updateTigs Cfg.updateCache
       Cfg.first_time].
  unfold Cfg.LAST_CACHE_VERSION.
  destruct (bool_decide (dir = "")), (cache <? 1),
    (Cfg.repo_version_differs root);
    cbn [Cfg.set_gamedir Cfg.set_updateCache Cfg.lastTime];
    destruct (Z.ltb_spec t 0);
    cbn [Cfg.set_lastTime Cfg.set_updateList Cfg.do_write fst orb];
    rewrite ?orb_true_r, ?orb_false_r; f_equal; lia.
Qed.

Lemma reads_of_write_version (c : Cfg.Config) :
  Cfg.repo_version_differs (Cfg.reads_of (Cfg.write c)) = false.
Proof.
  unfold Cfg.reads_of, Cfg.write.
  cbn [Cfg.repo_version_differs Cfg.j_repo_version].
  now rewrite bool_decide_eq_true_2 by reflexivity.
Qed.

(** X17: what [load] takes from a document.  When every member converts,
    also from a document of another [repo_version], the state holds the
    flags as read, [lastTime] is the number read or 0 when that is
    negative, [gamedir] is the name read or [games] when that is empty, and
    [updateCache] is raised when the cache version read is below 1.  But
    the members are assigned one by one inside the [try] block: when
    [last_time] converts and [seen_demo_msg] does not, [lastTime] keeps the
    number read, negative or not, [updateList] is set, and every other
    member but [filename] is as before. *)
Theorem load_takes_members (where_ : path) (f : Cfg.ConfigFile)
    (root : Cfg.JsonReads) (c : Cfg.Config) (t : Z) :
  Cfg.first_word f ≠ "" → Cfg.first_word f ≠ "1" → Cfg.first_word f ≠ "2" →
  Cfg.readJson f = Some root →
  Cfg.as_last_time root = Some t →
  let c' := (Cfg.load where_ (Some f) c).1 in
  (∀ seen asked dbg dir cache,
     Cfg.as_seen_demo_msg root = Some seen →
     Cfg.as_has_asked_dirs root = Some asked →
     Cfg.as_debug root = Some dbg →
     Cfg.as_gamedir root = Some dir →
     Cfg.as_cache_version root = Some cache →
     Cfg.lastTime c' = Z.max 0 t ∧
     Cfg.seen_demo_msg c' = seen ∧
     Cfg.has_asked_dirs c' = asked ∧
     Cfg.debug c' = dbg ∧
     Cfg.gamedir c' = (if bool_decide (dir = "") then "games" else dir) ∧
     Cfg.updateCache c' = (Cfg.updateCache c || (cache <? 1))%bool) ∧
  (Cfg.as_seen_demo_msg root = None →
   c' = Cfg.set_updateList true
          (Cfg.set_lastTime t (Cfg.set_filename (where_ // "config") c))).
Proof.
  intros H0 H1 H2 Hread Ht c'. subst c'. split.
  - intros seen asked dbg dir cache Hs Ha Hd Hg Hc.
    rewrite (load_converted where_ f root c t seen asked dbg dir cache)
      by assumption.
    now repeat split.
  - intros Hs. destruct c as [fn gd ul ut uc ft db sd ha lt].
    unfold Cfg.load. cbn [Cfg.first_word].
    rewrite !bool_decide_eq_false_2 by assumption. cbn [orb].
    rewrite Hread. unfold Cfg.try_load. rewrite Ht, Hs.
    rewrite orb_true_r. reflexivity.
Qed.

Lemma load_takes_members_witness :
  let root := {| Cfg.repo_version_differs := false;
                 Cfg.as_last_time := Some (-5);
                 Cfg.as_seen_demo_msg := None;
                 Cfg.as_has_asked_dirs := Some true;
                 Cfg.as_debug := Some false;
                 Cfg.as_gamedir := Some "games";
                 Cfg.as_cache_version := Some 1 |} in
  let f := {| Cfg.first_word := "{"; Cfg.readJson := Some root |} in
  Cfg.lastTime (Cfg.load ex_dir (Some f) Cfg.new_config).1 = -5.
Proof.
  cbv zeta.
  rewrite (proj2 (load_takes_members ex_dir
                    {| Cfg.first_word := "{";
                       Cfg.readJson := Some
                         {| Cfg.repo_version_differs := false;
                            Cfg.as_last_time := Some (-5);
                            Cfg.as_seen_demo_msg := None;
                            Cfg.as_has_asked_dirs := Some true;
                            Cfg.as_debug := Some false;
                            Cfg.as_gamedir := Some "games";
                            Cfg.as_cache_version := Some 1 |} |}
                    _ Cfg.new_config (-5)
                    ltac:(discriminate) ltac:(discriminate) ltac:(discriminate)
                    eq_refl eq_refl) eq_refl).
  reflexivity.
Defined.

(** X18: a state written and loaded again.  Let a file hold the document
    that [write] builds from [c], read back member for member, in the new
    format.  A [Config] that loads it takes from [c] the three flags
    [seen_demo_msg], [has_asked_dirs] and [debug]; its [lastTime] is the
    32-bit image of that of [c], or 0 when that is negative; its [gamedir]
    is that of [c], or [games] when that is empty; no error flag is
    raised.  What it writes back is the same document exactly when the
    32-bit image is not negative and [gamedir] is not empty; and from then
    on the document is stable: loading what was written back and writing
    again gives the same document. *)
Theorem write_load_round_trip (where_ : path) (f f' : Cfg.ConfigFile)
    (c c0 c1 : Cfg.Config) :
  Cfg.first_word f ≠ "" → Cfg.first_word f ≠ "1" → Cfg.first_word f ≠ "2" →
  Cfg.readJson f = Some (Cfg.reads_of (Cfg.write c)) →
  let c' := (Cfg.load where_ (Some f) c0).1 in
  Cfg.first_word f' ≠ "" → Cfg.first_word f' ≠ "1" → Cfg.first_word f' ≠ "2" →
  Cfg.readJson f' = Some (Cfg.reads_of (Cfg.write c')) →
  let c'' := (Cfg.load where_ (Some f') c1).1 in
  (Cfg.seen_demo_msg c' = Cfg.seen_demo_msg c ∧
   Cfg.has_asked_dirs c' = Cfg.has_asked_dirs c ∧
   Cfg.debug c' = Cfg.debug c ∧
   Cfg.lastTime c' = Z.max 0 (Cfg.to_int (Cfg.lastTime c)) ∧
   Cfg.gamedir c' = (if bool_decide (Cfg.gamedir c = "") then "games"
                     else Cfg.gamedir c) ∧
   Cfg.updateList c' = Cfg.updateList c0 ∧
   Cfg.updateCache c' = Cfg.updateCache c0 ∧
   Cfg.first_time c' = Cfg.first_time c0) ∧
  (Cfg.write c' = Cfg.write c
   ↔ 0 ≤ Cfg.to_int (Cfg.lastTime c) ∧ Cfg.gamedir c ≠ "") ∧
  Cfg.write c'' = Cfg.write c'.
Proof.
  intros H0 H1 H2 Hread c' H0' H1' H2' Hread' c''.
  assert (∀ g (cw cl : Cfg.Config),
            Cfg.first_word g ≠ "" → Cfg.first_word g ≠ "1" →
            Cfg.first_word g ≠ "2" →
            Cfg.readJson g = Some (Cfg.reads_of (Cfg.write cw)) →
            (Cfg.load where_ (Some g) cl).1
            = Cfg.mkConfig (where_ // "config")
                (if bool_decide (Cfg.gamedir cw = "") then "games"
                 else Cfg.gamedir cw)
                (Cfg.updateList cl) (Cfg.updateTigs cl) (Cfg.updateCache cl)
                (Cfg.first_time cl) (Cfg.debug cw) (Cfg.seen_demo_msg cw)
                (Cfg.has_asked_dirs cw)
                (Z.max 0 (Cfg.to_int (Cfg.lastTime cw)))) as Hload.
  { intros g cw cl G0 G1 G2 Gread.
    rewrite (load_converted where_ g _ cl (Cfg.to_int (Cfg.lastTime cw))
               (Cfg.seen_demo_msg cw) (Cfg.has_asked_dirs cw) (Cfg.debug cw)
               (Cfg.gamedir cw) 1 G0 G1 G2 Gread
               eq_refl eq_refl eq_refl eq_refl eq_refl eq_refl).
    rewrite reads_of_write_version.
    change (1 <? 1) with false. now rewrite !orb_false_r. }
  assert (c' = _) as Hc' by (apply (Hload f c c0); assumption).
  assert (c'' = _) as Hc'' by (apply (Hload f' c' c1); assumption).
  pose proof (to_int_range (Cfg.lastTime c)) as Hr.
  split; [rewrite Hc'; now repeat split|]. split.
  - rewrite Hc'. unfold Cfg.write. cbn [Cfg.lastTime Cfg.gamedir
      Cfg.seen_demo_msg Cfg.has_asked_dirs Cfg.debug].
    rewrite to_int_small by (clear -Hr; lia). split.
    + intros [= Hl Hg]. split; [clear -Hl; lia|].
      intros E. rewrite E in Hg. rewrite bool_decide_eq_true_2 in Hg by reflexivity.
      discriminate.
    + intros [Hl Hg]. rewrite bool_decide_eq_false_2 by exact Hg.
      now rewrite Z.max_r by lia.
  - rewrite Hc''. rewrite Hc'. unfold Cfg.write. cbn [Cfg.lastTime Cfg.gamedir
      Cfg.seen_demo_msg Cfg.has_asked_dirs Cfg.debug].
    set (x := Cfg.to_int (Cfg.lastTime c)) in *.
    rewrite !(to_int_small (Z.max 0 x)) by (clear -Hr; lia).
    rewrite (Z.max_r 0 (Z.max 0 x)) by lia.
    rewrite ?(to_int_small (Z.max 0 x)) by (clear -Hr; lia).
    destruct (bool_decide (Cfg.gamedir c = "")) eqn:E; [reflexivity|].
    now rewrite E.
Qed.

Lemma write_load_round_trip_witness :
  let c := Cfg.new_config in
  let f := {| Cfg.first_word := "{";
              Cfg.readJson := Some (Cfg.reads_of (Cfg.write c)) |} in
  let c' := (Cfg.load ex_dir (Some f) Cfg.new_config).1 in
  Cfg.lastTime c' = 0 ∧ Cfg.gamedir c' = "games".
Proof.
  cbv zeta.
  pose proof (write_load_round_trip ex_dir
                {| Cfg.first_word := "{";
                   Cfg.readJson := Some (Cfg.reads_of (Cfg.write Cfg.new_config)) |}
                {| Cfg.first_word := "{";
                   Cfg.readJson := Some (Cfg.reads_of (Cfg.write
                     (Cfg.load ex_dir (Some
                        {| Cfg.first_word := "{";
                           Cfg.readJson := Some (Cfg.reads_of (Cfg.write Cfg.new_config)) |})
                        Cfg.new_config).1)) |}
                Cfg.new_config Cfg.new_config Cfg.new_config
                ltac:(discriminate) ltac:(discriminate) ltac:(discriminate) eq_refl
                ltac:(discriminate) ltac:(discriminate) ltac:(discriminate) eq_refl)
    as ((_ & _ & _ & Hl & Hg & _) & _).
  split; [exact Hl | exact Hg].
Defined.

(** * Properties of the ratings *)

Lemma getRating_stored (id : string) (st : Repo.State) (r : Z) :
  0 ≤ r ≤ 5 → Repo.rates st !! id = Some r → Repo.getRating id st = r.
Proof.
  intros Hr E. unfold Repo.getRating. rewrite E. simpl.
  destruct (Z.ltb_spec r 0), (Z.gtb_spec r 5); simpl; lia.
Qed.

(** X19: [getRating] answers a rating from 0 to 5, or -1.  It answers a
    rating exactly when that rating is stored under the name; a name
    without a stored number, and a stored number outside 0 to 5, both read
    as -1. *)
Theorem getRating_range (id : string) (st : Repo.State) :
  (Repo.getRating id st = -1 ∨ 0 ≤ Repo.getRating id st ≤ 5) ∧
  (∀ r, 0 ≤ r ≤ 5 →
        (Repo.getRating id st = r ↔ Repo.rates st !! id = Some r)) ∧
  (Repo.getRating id st = -1
   ↔ Repo.rates st !! id = None
     ∨ ∃ v, Repo.rates st !! id = Some v ∧ (v < 0 ∨ 5 < v)).
Proof.
  unfold Repo.getRating.
  destruct (Repo.rates st !! id) as [v|] eqn:E; simpl.
  - assert (((v <? 0) || (v >? 5))%bool = true ↔ v < 0 ∨ 5 < v) as Hout.
    { rewrite orb_true_iff, Z.ltb_lt, Z.gtb_gt. lia. }
    destruct ((v <? 0) || (v >? 5))%bool.
    + assert (v < 0 ∨ 5 < v) as Hv by (now apply Hout).
      split; [now left|]. split.
      * intros r Hr. split; [lia | intros [= ->]; lia].
      * split; [intros _; right; eauto | reflexivity].
    + assert (¬ (v < 0 ∨ 5 < v)) as Hv by (intros H; now apply Hout in H).
      split; [right; lia|]. split.
      * intros r Hr. split; [now intros -> | now intros [= ->]].
      * split; [lia|].
        intros [Hn | (v' & [= <-] & Hv')]; [discriminate | lia].
  - split; [now left|]. split; [|split; [now left | reflexivity]].
    intros r Hr. split; [lia | discriminate].
Qed.

Lemma setRating_keeps (id id' urlname : string) (rate v : Z) (st : Repo.State) :
  Repo.rates st !! id = Some v →
  Repo.rates (Repo.setRating id' urlname rate st) !! id = Some v.
Proof.
  intros Hv. unfold Repo.setRating.
  destruct (_ || _)%bool; [exact Hv|].
  case_bool_decide as Hhas; [exact Hv|].
  simpl. rewrite lookup_insert_ne; [exact Hv|].
  intros ->. apply Hhas. eauto.
Qed.

Lemma setRatings_keep (votes : list Repo.Vote) (id : string) (v : Z) (st : Repo.State) :
  Repo.rates st !! id = Some v →
  Repo.rates (Repo.setRatings votes st) !! id = Some v.
Proof.
  revert st. induction votes as [|[[i u] r] votes IH]; intros st Hv; [exact Hv|].
  apply IH. simpl. now apply setRating_keeps.
Qed.

Lemma string_app_assoc (a b c : string) : (a +:+ b) +:+ c = a +:+ b +:+ c.
Proof.
  induction a as [|x a IH]; [reflexivity|].
  change (String x ((a +:+ b) +:+ c) = String x (a +:+ b +:+ c)).
  now f_equal.
Qed.

Lemma rateCh_digit (rate : Z) :
  0 ≤ rate ≤ 5 → String (Repo.rateCh rate) EmptyString = Repo.digit rate.
Proof.
  intros H.
  assert (rate = 0 ∨ rate = 1 ∨ rate = 2 ∨ rate = 3 ∨ rate = 4 ∨ rate = 5)
    as [->|[->|[->|[->|[->| ->]]]]] by lia; reflexivity.
Qed.

(** X20: a vote is cast once and stands.  [setRating] with a rating
    outside 0 to 5 does nothing.  With a rating from 0 to 5 for a game that
    has no stored number, it stores the rating and reports it to the
    server with one request, whose URL ends in the rating written as one
    decimal digit; from then on [getRating] answers this rating, whatever
    votes are cast afterwards, for this game or for others.  For a game
    that has a stored number it does nothing, also when that number lies
    outside 0 to 5 and reads as -1. *)
Theorem vote_once (id urlname : string) (rate : Z) (st : Repo.State) :
  (rate < 0 ∨ 5 < rate → Repo.setRating id urlname rate st = st) ∧
  (∀ v, Repo.rates st !! id = Some v → Repo.setRating id urlname rate st = st) ∧
  (0 ≤ rate ≤ 5 → Repo.rates st !! id = None →
   let st' := Repo.setRating id urlname rate st in
   Repo.fetched st'
   = (Repo.fetched st
      ++ ["http://tiggit.net/api/count/" +:+ urlname +:+ "&rate="
          +:+ Repo.digit rate])%list ∧
   (∀ id', id' ≠ id → Repo.rates st' !! id' = Repo.rates st !! id') ∧
   ∀ votes, Repo.getRating id (Repo.setRatings votes st') = rate).
Proof.
  split; [|split].
  - intros H. unfold Repo.setRating.
    destruct (Z.ltb_spec rate 0), (Z.gtb_spec rate 5); simpl; try reflexivity; lia.
  - intros v Hv. unfold Repo.setRating.
    destruct (_ || _)%bool; [reflexivity|].
    now rewrite bool_decide_eq_true_2 by eauto.
  - intros Hr Hnone st'. subst st'. unfold Repo.setRating.
    destruct (Z.ltb_spec rate 0), (Z.gtb_spec rate 5); try lia. simpl.
    rewrite bool_decide_eq_false_2 by (rewrite Hnone; now intros [? ?]).
    simpl. split; [|split].
    + rewrite <- (rateCh_digit rate Hr). now rewrite !string_app_assoc.
    + intros id' Hne. now rewrite lookup_insert_ne.
    + intros votes.
      apply getRating_stored; [exact Hr|].
      apply setRatings_keep. simpl. apply lookup_insert_eq.
Qed.

(** A first vote of 4, then an attempt to change it to 1. *)
Lemma vote_once_witness :
  let st := Repo.setRating "braid" "braid-demo" 4
              {| Repo.rates := ∅; Repo.fetched := [] |} in
  Repo.fetched st = ["http://tiggit.net/api/count/braid-demo&rate=4"] ∧
  Repo.getRating "braid" (Repo.setRatings [("braid", "braid-demo", 1)] st) = 4.
Proof.
  cbv zeta.
  destruct (proj2 (proj2 (vote_once "braid" "braid-demo" 4
                            {| Repo.rates := ∅; Repo.fetched := [] |}))
              ltac:(lia) (lookup_empty "braid")) as (Hf & _ & Hr).
  split; [exact Hf | apply Hr].
Defined.
